(** * branding-bot: emoji code points and extension management

    A shallow embedding of [bot/exts/twemoji/twemoji.py] (module [Twemoji])
    and of [bot/exts/utils/extensions.py] (module [Extensions]), with the
    properties the specification states about them. *)

From stdpp Require Import gmap strings list pretty.
From Stdlib Require Import Ascii NArith ZArith Lia.

(** The line feed, written [\n] in the Python source. *)
Definition nl : string := String (Ascii.ascii_of_nat 10) "".

(* ================================================================== *)
(** ** twemoji.py *)
(* ================================================================== *)
Module Twemoji.

(** A Python [str] is a sequence of Unicode code points; [ord], [chr] and
    iteration over a [str] work on code points, so that is what is kept. *)
Abbreviation pystr := (list N).

(** The code points of an ASCII literal of the source. *)
Definition lit (s : string) : pystr :=
  Ascii.N_of_ascii <$> String.list_ascii_of_string s.

(** The built-in exceptions this file can raise. *)
Inductive exn : Type :=
| ValueError (msg : string)
| IndexError (msg : string)
| TypeError (msg : string).

Inductive result (A : Type) : Type :=
| Ret (a : A)
| Raise (e : exn).
Arguments Ret {A} a.
Arguments Raise {A} e.

#[export] Instance result_ret : MRet result := @Ret.
#[export] Instance result_bind : MBind result := λ A B f r,
  match r with
  | Ret a => f a
  | Raise e => Raise e
  end.

(** A generator consumed by [str.join]: the elements are produced in order
    and the first exception ends the iteration. *)
Fixpoint for_each {A B} (f : A → result B) (l : list A) : result (list B) :=
  match l with
  | [] => Ret []
  | x :: l' => y ← f x; ys ← for_each f l'; Ret (y :: ys)
  end.

(** [sep.join(parts)] *)
Fixpoint join (sep : pystr) (parts : list pystr) : pystr :=
  match parts with
  | [] => []
  | [p] => p
  | p :: ps => p ++ sep ++ join sep ps
  end.

(** Iterating over a [str] yields its characters as one-character strings. *)
Definition chars (s : pystr) : list pystr := (λ c, [c]) <$> s.

(** *** Built-ins: [ord], [chr], [hex], [int(_, 16)], [str.split] *)

Definition MAX_CODEPOINT : N := 0x10FFFF.

Definition ord (s : pystr) : result N :=
  match s with
  | [c] => Ret c
  | _ => Raise (TypeError "ord() expected a character")
  end.

Definition chr (n : N) : result pystr :=
  if (n <=? MAX_CODEPOINT)%N then Ret [n]
  else Raise (ValueError "chr() arg not in range(0x110000)").

(** The character of one hexadecimal digit, lower case as [hex] prints it. *)
Definition hex_char (d : N) : N :=
  if (d <? 10)%N then (48 + d)%N else (87 + d)%N.

Fixpoint hex_go (fuel : nat) (n : N) (acc : pystr) : pystr :=
  match fuel with
  | O => acc
  | S fuel' =>
      let acc' := hex_char (n mod 16) :: acc in
      if (n <? 16)%N then acc' else hex_go fuel' (n / 16) acc'
  end.

(** The digits of [hex(n)]; a number has no more hexadecimal digits than
    binary ones, which bounds the loop. *)
Definition hex_digits (n : N) : pystr :=
  hex_go (S (N.to_nat (N.log2 n))) n [].

Definition hex (n : N) : pystr := lit "0x" ++ hex_digits n.

Definition hex_val (c : N) : option N :=
  if ((48 <=? c) && (c <=? 57))%N then Some (c - 48)%N
  else if ((97 <=? c) && (c <=? 102))%N then Some (c - 87)%N
  else if ((65 <=? c) && (c <=? 70))%N then Some (c - 55)%N
  else None.

Fixpoint int16_go (acc : N) (s : pystr) : option N :=
  match s with
  | [] => Some acc
  | c :: s' =>
      match hex_val c with
      | Some d => int16_go (16 * acc + d)%N s'
      | None => None
      end
  end.

(** [int(s, 16)] on a string of hexadecimal digits.  The source only calls it
    on a match of [CODE], which is such a string; the other spellings [int]
    accepts (sign, prefix, underscores, blanks) never reach it. *)
Definition int16 (s : pystr) : result N :=
  match s with
  | [] => Raise (ValueError "invalid literal for int() with base 16")
  | _ =>
      match int16_go 0 s with
      | Some n => Ret n
      | None => Raise (ValueError "invalid literal for int() with base 16")
      end
  end.

(** [str.isspace] for one character. *)
Definition isspace (c : N) : bool :=
  ((9 <=? c) && (c <=? 13) || (28 <=? c) && (c <=? 32)
   || (c =? 0x85) || (c =? 0xA0) || (c =? 0x1680)
   || (0x2000 <=? c) && (c <=? 0x200A)
   || (c =? 0x2028) || (c =? 0x2029) || (c =? 0x202F)
   || (c =? 0x205F) || (c =? 0x3000))%N.

Fixpoint split_go (cur : pystr) (s : pystr) : list pystr :=
  match s with
  | [] => match cur with [] => [] | _ => [cur] end
  | c :: s' =>
      if isspace c
      then match cur with [] => split_go [] s' | _ => cur :: split_go [] s' end
      else split_go (cur ++ [c]) s'
  end.

(** [s.split()]: the maximal runs of characters that are not white space. *)
Definition split (s : pystr) : list pystr := split_go [] s.

(** *** [CODE = re.compile(r"[a-f1-9][a-f0-9]{3,5}$")] *)

(** [[a-f0-9]] *)
Definition in_af09 (c : N) : bool :=
  ((97 <=? c) && (c <=? 102) || (48 <=? c) && (c <=? 57))%N.

(** [[a-f1-9]] *)
Definition in_af19 (c : N) : bool :=
  ((97 <=? c) && (c <=? 102) || (49 <=? c) && (c <=? 57))%N.

(** [$]: the end of the string, or just before a line feed that ends it. *)
Definition at_dollar (rest : pystr) : bool :=
  match rest with
  | [] => true
  | [10%N] => true
  | _ => false
  end.

(** [[a-f0-9]{k}$] at the start of [rest]. *)
Definition tail_matches (k : nat) (rest : pystr) : bool :=
  bool_decide (k ≤ length rest)%nat && forallb in_af09 (take k rest)
  && at_dollar (drop k rest).

(** The pattern anchored at the start of [s].  The repetition is greedy: five
    characters are tried first, then four, then three. *)
Definition CODE_match (s : pystr) : option pystr :=
  match s with
  | [] => None
  | c :: rest =>
      if in_af19 c then
        if tail_matches 5 rest then Some (c :: take 5 rest)
        else if tail_matches 4 rest then Some (c :: take 4 rest)
        else if tail_matches 3 rest then Some (c :: take 3 rest)
        else None
      else None
  end.

(** [CODE.search(s)] followed by [.group()]: the leftmost match. *)
Fixpoint CODE_search (s : pystr) : option pystr :=
  match CODE_match s with
  | Some m => Some m
  | None =>
      match s with
      | [] => None
      | _ :: s' => CODE_search s'
      end
  end.

(** Truth value of an optional string: [None] and [""] are false. *)
Definition truthy (o : option pystr) : bool :=
  match o with
  | Some (_ :: _) => true
  | _ => false
  end.

(** *** The static methods of [Twemoji] *)

Definition trim_code (codepoint : option pystr) : option pystr :=
  if negb (truthy codepoint) then None
  else match codepoint with
       | Some s => CODE_search s
       | None => None
       end.

(** [emoji] is annotated [str] but is also called on the optional result of
    [trim_code], hence the [option]. *)
Definition emoji (codepoint : option pystr) : result pystr :=
  let code := trim_code codepoint in
  if truthy code then
    match code with
    | Some c => n ← int16 c; chr n
    | None => Ret []
    end
  else Ret [].

Definition codepoint (emoji : pystr) : result pystr :=
  n ← ord emoji; Ret (drop 2 (hex n)).

Definition index0 (l : list pystr) : result pystr :=
  match l with
  | x :: _ => Ret x
  | [] => Raise (IndexError "list index out of range")
  end.

Section CodepointFromInput.
(** [str.lower] (Unicode case mapping) and the table behind
    [emoji.is_emoji] belong to the interpreter and to the [emoji] package. *)
Variable lower : pystr → pystr.
Variable EMOJI_DATA : gset pystr.

Definition is_emoji (s : pystr) : bool := bool_decide (s ∈ EMOJI_DATA).

Definition codepoint_from_input (raw_emoji : pystr) : result pystr :=
  let emoji_list := lower <$> split raw_emoji in
  first ← index0 emoji_list;
  if is_emoji first then
    emojis ← for_each codepoint (chars first);
    Ret (join (lit "-") emojis)
  else
    parts ← for_each (λ code, emoji (trim_code (Some code))) emoji_list;
    let emoji := concat parts in
    if is_emoji emoji then
      cps ← for_each codepoint (chars emoji);
      Ret (join (lit "-") cps)
    else
      Raise (ValueError "No codepoint could be obtained from the given input").
End CodepointFromInput.

(** ASCII lower-casing, the part of [str.lower] the examples need. *)
Definition ascii_lower (s : pystr) : pystr :=
  (λ c, if ((65 <=? c) && (c <=? 90))%N then (c + 32)%N else c) <$> s.

(** *** What the specification speaks of *)

(** [Twemoji.emoji(Twemoji.codepoint(e))] *)
Definition roundtrip (e : pystr) : result pystr :=
  cp ← codepoint e; emoji (Some cp).

(** The canonical form of an emoji: the lower-case hexadecimal code points
    of its characters, joined by hyphens. *)
Definition canonical (e : pystr) : pystr :=
  join (lit "-") (hex_digits <$> e).

Definition is_ValueError (e : exn) : Prop := ∃ msg, e = ValueError msg.

(** *** The embed of the command *)

(** [s.split(sep)] for a one-character separator: never an empty list. *)
Fixpoint split_on (sep : N) (s : pystr) : list pystr :=
  match s with
  | [] => [[]]
  | c :: s' =>
      if (c =? sep)%N then [] :: split_on sep s'
      else match split_on sep s' with
           | x :: xs => (c :: x) :: xs
           | [] => [[c]]
           end
  end.

(** [s.replace(old, new)] for one-character strings. *)
Definition replace (old new : N) (s : pystr) : pystr :=
  (λ c, if (c =? old)%N then new else c) <$> s.

(** [s[1:-1]] *)
Definition strip_ends (s : pystr) : pystr :=
  drop 1 (take (length s - 1) s).

(** What the command can raise: a built-in exception of the functions
    above, the [KeyError] of a dictionary, or [commands.BadArgument]. *)
Inductive cmd_exn : Type :=
| Builtin (e : exn)
| KeyError (key : pystr)
| BadArgument (msg : string).

Inductive cmd_result (A : Type) : Type :=
| Done (a : A)
| Fails (e : cmd_exn).
Arguments Done {A} a.
Arguments Fails {A} e.

#[export] Instance cmd_result_ret : MRet cmd_result := @Done.
#[export] Instance cmd_result_bind : MBind cmd_result := λ A B f r,
  match r with
  | Done a => f a
  | Fails e => Fails e
  end.

Definition lift {A} (r : result A) : cmd_result A :=
  match r with
  | Ret a => Done a
  | Raise e => Fails (Builtin e)
  end.

Definition BASE_URLS (format : pystr) : option pystr :=
  if decide (format = lit "png") then
    Some (lit "https://raw.githubusercontent.com/twitter/twemoji/master/assets/72x72/")
  else if decide (format = lit "svg") then
    Some (lit "https://raw.githubusercontent.com/twitter/twemoji/master/assets/svg/")
  else None.

Definition get_url (codepoint format : pystr) : cmd_result pystr :=
  match BASE_URLS format with
  | Some base => Done (base ++ codepoint ++ lit "." ++ format)
  | None => Fails (KeyError format)
  end.

Section Command.
(** [str.lower] and [str.capitalize] belong to the interpreter, the two
    emoji tables to the [emoji] package, and [create_embed] (called with a
    title, a description and a thumbnail URL) to the rest of the
    repository. *)
Variable lower : pystr → pystr.
Variable capitalize : pystr → pystr.
Variable EMOJI_DATA : gset pystr.
Variable UNICODE_EMOJI_ENGLISH : gmap pystr pystr.
Variable Embed : Type.
Variable create_embed : pystr → pystr → pystr → Embed.

Definition alias_to_name (alias : pystr) : pystr :=
  let name := replace 95 32 (strip_ends alias) in
  capitalize name.

Definition build_embed (codepoint : pystr) : cmd_result Embed :=
  parts ← lift (for_each (λ e, emoji (Some e)) (split_on 45 codepoint));
  let emoji := concat parts in
  match UNICODE_EMOJI_ENGLISH !! emoji with
  | None => Fails (KeyError emoji)
  | Some alias =>
      svg ← get_url codepoint (lit "svg");
      png ← get_url codepoint (lit "png");
      Done (create_embed
              (alias_to_name alias)
              (replace 45 32 codepoint ++ [10%N] ++ lit "[Download svg]("
               ++ svg ++ lit ")")
              png)
  end.

(** The slash command; the result is the embed sent, if any. *)
Definition twemoji (raw_emoji : pystr) : cmd_result (option Embed) :=
  if bool_decide (length raw_emoji = 0) then Done None
  else
    match codepoint_from_input lower EMOJI_DATA raw_emoji with
    | Raise (ValueError _) =>
        Fails (BadArgument "please include a valid emoji or emoji codepoint.")
    | Raise e => Fails (Builtin e)
    | Ret codepoint =>
        embed ← build_embed codepoint;
        Done (Some embed)
    end.
End Command.

(** The part of an emoji that survives [build_embed]'s reading of its code
    points: the characters from U+1000 on. *)
Definition readable (e : pystr) : pystr :=
  filter (λ c, 0x1000 ≤ c)%N e.

(** The two values of [BASE_URLS]. *)
Definition svg_base : pystr :=
  lit "https://raw.githubusercontent.com/twitter/twemoji/master/assets/svg/".
Definition png_base : pystr :=
  lit "https://raw.githubusercontent.com/twitter/twemoji/master/assets/72x72/".

(** A code as [CODE] matches it: four to six characters, the first of
    [a-f1-9], the others of [a-f0-9]. *)
Definition is_code (m : pystr) : Prop :=
  ∃ c rest, m = c :: rest ∧ in_af19 c = true
            ∧ Forall (λ d, in_af09 d = true) rest
            ∧ (3 ≤ length rest ≤ 5)%nat.

(** The description [build_embed] gives the embed. *)
Definition description (codepoint : pystr) : pystr :=
  replace 45 32 codepoint ++ [10%N] ++ lit "[Download svg]("
  ++ (svg_base ++ codepoint ++ lit ".svg") ++ lit ")".

(** ASCII capitalisation, the part of [str.capitalize] the examples need. *)
Definition ascii_capitalize (s : pystr) : pystr :=
  match s with
  | [] => []
  | c :: s' =>
      (if ((97 <=? c) && (c <=? 122))%N then (c - 32)%N else c)
        :: ascii_lower s'
  end.

(** A small table for the examples: the snake, the flag of Sweden and the
    copyright sign with its variation selector. *)
Definition sample_emojis : gset pystr :=
  {[ [0x1f40d%N]; [0x1f1f8%N; 0x1f1ea%N]; [0xa9%N; 0xfe0f%N] ]}.

Definition sample_aliases : gmap pystr pystr :=
  {[ [0x1f40d%N] := lit ":snake:";
     [0x1f1f8%N; 0x1f1ea%N] := lit ":Sweden:";
     [0xa9%N; 0xfe0f%N] := lit ":copyright:" ]}.

Definition sample_embed (title description thumbnail_url : pystr)
    : pystr * pystr * pystr :=
  (title, description, thumbnail_url).

End Twemoji.

(* ================================================================== *)
(** ** extensions.py *)
(* ================================================================== *)
Module Extensions.

(** *** Strings *)

Definition lower_ascii (c : Ascii.ascii) : Ascii.ascii :=
  let n := Ascii.nat_of_ascii c in
  if (65 <=? n)%nat && (n <=? 90)%nat then Ascii.ascii_of_nat (n + 32) else c.

(** [s.lower()], on the ASCII names it is applied to. *)
Fixpoint lower (s : string) : string :=
  match s with
  | EmptyString => EmptyString
  | String c s' => String (lower_ascii c) (lower s')
  end.

(** [s[n:]] *)
Fixpoint slice_from (n : nat) (s : string) : string :=
  match n, s with
  | O, _ => s
  | S n', String _ s' => slice_from n' s'
  | S _, EmptyString => EmptyString
  end.

(** [s.split(sep)] for a one-character separator: never an empty list. *)
Fixpoint split (sep : Ascii.ascii) (s : string) : list string :=
  match s with
  | EmptyString => [EmptyString]
  | String c s' =>
      if Ascii.eqb c sep then EmptyString :: split sep s'
      else match split sep s' with
           | x :: xs => String c x :: xs
           | [] => [String c EmptyString]
           end
  end.

(** [sep.join(parts)] *)
Definition join (sep : string) (parts : list string) : string :=
  String.concat sep parts.

(** Truth value of a string and of an optional string. *)
Definition truthy (s : string) : bool :=
  match s with EmptyString => false | _ => true end.

Definition truthy_opt (o : option string) : bool :=
  match o with Some s => truthy s | None => false end.

(** *** Constants *)

(** [exts.__name__], the package [bot.exts]. *)
Definition exts_name : string := "bot.exts".

Definition UNLOAD_BLACKLIST : gset string :=
  {[ exts_name +:+ ".utils.extensions" ]}.

Definition BASE_PATH_LEN : nat := length (split "."%char exts_name).

(** *** Exceptions and the host *)

(** What the handlers of [manage] tell apart: the two classes of the first
    [except] clause, and every other [Exception]. *)
Inductive exn_kind : Type :=
| ExtensionAlreadyLoaded
| ExtensionNotLoaded
| OtherException.

#[export] Instance exn_kind_eq_dec : EqDecision exn_kind.
Proof. solve_decision. Defined.

(** An exception object: what [isinstance] sees, [__class__.__name__] and
    [str(e)]; a [Wrapper] also has an [original] attribute. *)
Inductive exn : Type :=
| Plain (k : exn_kind) (name : string) (text : string)
| Wrapper (k : exn_kind) (name : string) (text : string) (cause : exn).

Definition kind (e : exn) : exn_kind :=
  match e with Plain k _ _ | Wrapper k _ _ _ => k end.

(** [e.__class__.__name__] *)
Definition class_name (e : exn) : string :=
  match e with Plain _ n _ | Wrapper _ n _ _ => n end.

(** [str(e)] *)
Definition detail (e : exn) : string :=
  match e with Plain _ _ t | Wrapper _ _ t _ => t end.

(** [e.original], when [hasattr(e, "original")]. *)
Definition original (e : exn) : option exn :=
  match e with Plain _ _ _ => None | Wrapper _ _ _ o => Some o end.

Inductive Action : Type := LOAD | UNLOAD | RELOAD.

#[export] Instance Action_eq_dec : EqDecision Action.
Proof. solve_decision. Defined.

Definition Action_name (a : Action) : string :=
  match a with
  | LOAD => "LOAD"
  | UNLOAD => "UNLOAD"
  | RELOAD => "RELOAD"
  end.

(** The bot framework: the table of loaded extensions and the three
    operations on it.  An operation returns the new state of the bot and the
    exception it raised, if any. *)
Class Host : Type := {
  Bot : Type;
  bot_extensions : Bot → gset string;
  load_extension : Bot → string → Bot * option exn;
  unload_extension : Bot → string → Bot * option exn;
  reload_extension : Bot → string → Bot * option exn;
}.

(** What the file imports from the rest of the repository: the known
    extensions, the two status emojis and the embed builder. *)
Class Repo : Type := {
  EXTENSIONS : gset string;
  status_online : string;
  status_offline : string;
  Embed : Type;
  create_embed : string → string → Embed;
}.

(** [Action.value] *)
Definition Action_value `{Host} (a : Action) : Bot → string → Bot * option exn :=
  match a with
  | LOAD => load_extension
  | UNLOAD => unload_extension
  | RELOAD => reload_extension
  end.

(** *** The world a command runs in *)

Inductive level : Type := DEBUG | ERROR.

Inductive Reply `{Repo} : Type :=
| SendHelp
| Send (embed : Embed).

(** The bot, the host operations invoked so far (oldest first), the log and
    what was sent to the channel. *)
Record World `{Host, Repo} : Type := mkWorld {
  bot : Bot;
  calls : list (Action * string);
  log : list (level * string);
  sent : list Reply;
}.

Inductive result (A : Type) : Type :=
| Ret (a : A)
| Raise (e : exn)
| OutOfFuel.
Arguments Ret {A} a.
Arguments Raise {A} e.
Arguments OutOfFuel {A}.

Section Commands.
Context `{HH : Host, RR : Repo}.

Definition M (A : Type) : Type := World → World * result A.

Definition ret {A} (a : A) : M A := λ w, (w, Ret a).

Definition bind {A B} (m : M A) (k : A → M B) : M B := λ w,
  match m w with
  | (w', Ret a) => k a w'
  | (w', Raise e) => (w', Raise e)
  | (w', OutOfFuel) => (w', OutOfFuel)
  end.

Definition out_of_fuel {A} : M A := λ w, (w, OutOfFuel).

(** [try: body / except Exception as e: handler e / else: orelse] *)
Definition try_except_else {A B}
    (body : M A) (handler : exn → M B) (orelse : A → M B) : M B := λ w,
  match body w with
  | (w', Ret a) => orelse a w'
  | (w', Raise e) => handler e w'
  | (w', OutOfFuel) => (w', OutOfFuel)
  end.

Definition get_bot : M Bot := λ w, (w, Ret (bot w)).

(** [action.value(self.bot, ext)] *)
Definition call (action : Action) (ext : string) : M unit := λ w,
  let '(b, r) := Action_value action (bot w) ext in
  (mkWorld _ _ b (calls w ++ [(action, ext)]) (log w) (sent w),
   match r with Some e => Raise e | None => Ret tt end).

Definition logger (lvl : level) (msg : string) : M unit := λ w,
  (mkWorld _ _ (bot w) (calls w) (log w ++ [(lvl, msg)]) (sent w), Ret tt).

Definition ctx_send (r : Reply) : M unit := λ w,
  (mkWorld _ _ (bot w) (calls w) (log w) (sent w ++ [r]), Ret tt).

Notation "x ←. m ; k" := (bind m (λ x, k))
  (at level 20, m at level 100, k at level 200, only parsing).
Notation "m ;;. k" := (bind m (λ _, k))
  (at level 100, k at level 200, right associativity, only parsing).

(** The first [except] clause: [ExtensionAlreadyLoaded] or
    [ExtensionNotLoaded]. *)
Definition is_load_state_error (e : exn) : bool :=
  bool_decide (kind e = ExtensionAlreadyLoaded)
  || bool_decide (kind e = ExtensionNotLoaded).

(** [manage]; [depth] bounds the nesting of its calls to itself. *)
Fixpoint manage_rec (depth : nat) (action : Action) (ext : string)
    : M (string * option string) :=
  match depth with
  | O => out_of_fuel
  | S depth' =>
      let verb := lower (Action_name action) in
      try_except_else (call action ext)
        (λ e,
          if is_load_state_error e then
            if decide (action = RELOAD) then
              (* When reloading, just load the extension if it was not loaded. *)
              manage_rec depth' LOAD ext
            else
              let msg := "Extension `" +:+ ext +:+ "` is already "
                         +:+ verb +:+ "ed." in
              logger DEBUG (slice_from 4 msg) ;;.
              ret (msg, None)
          else
            let e := match original e with Some o => o | None => e end in
            logger ERROR ("Extension '" +:+ ext +:+ "' failed to "
                          +:+ verb +:+ ".") ;;.
            let error_msg := class_name e +:+ ": " +:+ detail e in
            let msg := "Failed to " +:+ verb +:+ " extension `" +:+ ext
                       +:+ "`:" +:+ nl +:+ "```" +:+ nl +:+ error_msg
                       +:+ "```" in
            ret (msg, Some error_msg))
        (λ _,
          let msg := "Extension successfully " +:+ verb +:+ "ed: `"
                     +:+ ext +:+ "`." in
          logger DEBUG (slice_from 10 msg) ;;.
          ret (msg, None))
  end.

(** One level of nesting is all [manage] ever needs (see
    [manage_rec_depth] below). *)
Definition manage : Action → string → M (string * option string) :=
  manage_rec 2.

(** [failures[extension] = error] on a dict kept in insertion order. *)
Fixpoint dict_set (k v : string) (d : list (string * string))
    : list (string * string) :=
  match d with
  | [] => [(k, v)]
  | (k', v') :: d' =>
      if decide (k = k') then (k, v) :: d' else (k', v') :: dict_set k v d'
  end.

(** The loop of [batch_manage]. *)
Fixpoint manage_each (action : Action) (extensions : list string)
    (failures : list (string * string)) : M (list (string * string)) :=
  match extensions with
  | [] => ret failures
  | extension :: rest =>
      r ←. manage action extension;
      let failures :=
        match r.2 with
        | Some error => if truthy error then dict_set extension error failures
                        else failures
        | None => failures
        end in
      manage_each action rest failures
  end.

Definition failure_lines (failures : list (string * string)) : string :=
  join nl ((λ f, f.1 +:+ nl +:+ "    " +:+ f.2) <$> failures).

Definition batch_manage (action : Action) (extensions : list string)
    : M (string * bool) :=
  match extensions with
  | [extension] =>
      r ←. manage action extension;
      ret (r.1, truthy_opt r.2)
  | _ =>
      let verb := lower (Action_name action) in
      failures ←. manage_each action extensions [];
      let msg := pretty (Z.of_nat (length extensions)
                         - Z.of_nat (length failures))%Z
                 +:+ " / " +:+ pretty (Z.of_nat (length extensions))
                 +:+ " extensions " +:+ verb +:+ "ed." in
      let status := negb (bool_decide (failures = [])) in
      let msg :=
        if status then
          msg +:+ nl +:+ nl +:+ "**Failures:**```" +:+ nl
              +:+ failure_lines failures +:+ "```"
        else msg in
      logger DEBUG ("Batch " +:+ verb +:+ "ed extensions.") ;;.
      ret (msg, status)
  end.

Definition has_wildcard (extensions : list string) : bool :=
  bool_decide ("*" ∈ extensions) || bool_decide ("**" ∈ extensions).

(** The commands take the extension names as the [Extension] converter
    delivers them.  A Python set has no order of its own; where the source
    spreads a set into the arguments of [batch_manage], [elements] fixes
    one. *)

Definition load_command (extensions : list string) : M unit :=
  match extensions with
  | [] => ctx_send SendHelp
  | _ =>
      b ←. get_bot;
      let extensions :=
        if has_wildcard extensions
        then elements (EXTENSIONS ∖ bot_extensions b)
        else extensions in
      r ←. batch_manage LOAD extensions;
      let embed := create_embed (if r.2 then "error" else "confirmation") r.1 in
      ctx_send (Send embed)
  end.

Definition unload_command (extensions : list string) : M unit :=
  match extensions with
  | [] => ctx_send SendHelp
  | _ =>
      let blacklisted :=
        join nl (elements (UNLOAD_BLACKLIST ∩ list_to_set extensions)) in
      r ←. (if truthy blacklisted then
              let msg := "The following extension(s) may not be unloaded:```"
                         +:+ nl +:+ blacklisted +:+ "```" in
              ret (msg, true)
            else
              b ←. get_bot;
              let extensions :=
                if has_wildcard extensions
                then elements (bot_extensions b ∖ UNLOAD_BLACKLIST)
                else extensions in
              batch_manage UNLOAD extensions);
      let embed := create_embed (if r.2 then "error" else "confirmation") r.1 in
      ctx_send (Send embed)
  end.

Definition reload_command (extensions : list string) : M unit :=
  match extensions with
  | [] => ctx_send SendHelp
  | _ =>
      b ←. get_bot;
      let extensions :=
        if bool_decide ("**" ∈ extensions) then elements EXTENSIONS
        else if bool_decide ("*" ∈ extensions) then
          elements ((bot_extensions b ∪ list_to_set extensions) ∖ {["*"]})
        else extensions in
      r ←. batch_manage RELOAD extensions;
      let embed := create_embed (if r.2 then "error" else "confirmation") r.1 in
      ctx_send (Send embed)
  end.

(** *** The listing *)

(** [path[start:-1]] *)
Definition slice_to_last {A} (start : nat) (path : list A) : list A :=
  drop start (take (length path - 1) path).

Definition status_of (b : Bot) (ext : string) : string :=
  if bool_decide (ext ∈ bot_extensions b) then status_online
  else status_offline.

Definition category_of (ext : string) : string :=
  let path := split "." ext in
  if bool_decide (BASE_PATH_LEN + 1 < length path)%nat
  then join " - " (slice_to_last BASE_PATH_LEN path)
  else "uncategorised".

(** [f"{status}  {path[-1]}"] *)
Definition entry_of (b : Bot) (ext : string) : string :=
  status_of b ext +:+ "  " +:+ default "" (last (split "." ext)).

(** [categories.setdefault(category, []).append(x)] *)
Definition setdefault_append (category x : string)
    (categories : gmap string (list string)) : gmap string (list string) :=
  <[category := default [] (categories !! category) ++ [x]]> categories.

Definition group_extension_statuses (b : Bot) : gmap string (list string) :=
  foldl (λ categories ext,
           setdefault_append (category_of ext) (entry_of b ext) categories)
        ∅ (elements EXTENSIONS).
End Commands.

(** *** What the specification speaks of *)

Section Specification.
Context `{HH : Host, RR : Repo}.

(** The world right after the host operation returned [b]. *)
Definition called (w : World) (action : Action) (ext : string) (b : Bot)
    : World :=
  mkWorld _ _ b (calls w ++ [(action, ext)]) (log w) (sent w).

Definition logged (w : World) (lvl : level) (msg : string) : World :=
  mkWorld _ _ (bot w) (calls w) (log w ++ [(lvl, msg)]) (sent w).

Definition verb (action : Action) : string := lower (Action_name action).

Definition msg_success (action : Action) (ext : string) : string :=
  "Extension successfully " +:+ verb action +:+ "ed: `" +:+ ext +:+ "`.".

Definition msg_already (action : Action) (ext : string) : string :=
  "Extension `" +:+ ext +:+ "` is already " +:+ verb action +:+ "ed.".

Definition msg_failed (action : Action) (ext : string) (error_msg : string)
    : string :=
  "Failed to " +:+ verb action +:+ " extension `" +:+ ext +:+ "`:" +:+ nl
  +:+ "```" +:+ nl +:+ error_msg +:+ "```".

(** What one call of [manage] can do: it returns, having invoked the
    operation of its action once, followed by one [LOAD] when a reload fell
    back to it. *)
Inductive manage_trace (action : Action) (ext : string)
    : list (Action * string) → Prop :=
| trace_direct : manage_trace action ext [(action, ext)]
| trace_fallback :
    action = RELOAD → manage_trace action ext [(RELOAD, ext); (LOAD, ext)].

(** The report of a batch, as the specification words it. *)
Definition summary (action : Action) (total : nat)
    (failures : list (string * string)) : string :=
  let counts :=
    pretty (Z.of_nat total - Z.of_nat (length failures))%Z +:+ " / "
    +:+ pretty (Z.of_nat total) +:+ " extensions " +:+ verb action
    +:+ "ed." in
  match failures with
  | [] => counts
  | _ => counts +:+ nl +:+ nl +:+ "**Failures:**```" +:+ nl
         +:+ failure_lines failures +:+ "```"
  end.

(** The contract of the framework the specification relies on: reloading
    an extension that is not loaded raises [ExtensionNotLoaded], loading one
    that is loaded raises [ExtensionAlreadyLoaded], and neither changes the
    bot. *)
Definition reload_needs_loaded : Prop :=
  ∀ b ext, ext ∉ bot_extensions b →
    ∃ e, reload_extension b ext = (b, Some e) ∧ kind e = ExtensionNotLoaded.

Definition load_needs_unloaded : Prop :=
  ∀ b ext, ext ∈ bot_extensions b →
    ∃ e, load_extension b ext = (b, Some e)
         ∧ kind e = ExtensionAlreadyLoaded.

(** The error at the bottom of a chain of [original] attributes. *)
Fixpoint innermost (e : exn) : exn :=
  match e with
  | Plain _ _ _ => e
  | Wrapper _ _ _ o => innermost o
  end.

(** The error an exception reports as its cause: its [original] when it
    has one, itself otherwise. *)
Definition reported_cause (e : exn) : exn :=
  match e with
  | Plain _ _ _ => e
  | Wrapper _ _ _ o => o
  end.

(** ["{error kind}: {error detail}"] *)
Definition describe (e : exn) : string :=
  class_name e +:+ ": " +:+ detail e.

(** The error message of each unit when [manage] is applied to the units
    in turn, each in the world the previous ones left. *)
Fixpoint outcomes (action : Action) (extensions : list string) (w : World)
    : list (string * option string) :=
  match extensions with
  | [] => []
  | ext :: rest =>
      let '(w', r) := manage action ext w in
      (ext, match r with Ret out => out.2 | _ => None end)
        :: outcomes action rest w'
  end.

(** The failed units with their error messages, in order. *)
Definition failed (os : list (string * option string))
    : list (string * string) :=
  omap (λ o, match o.2 with Some err => Some (o.1, err) | None => None end) os.

(** The units without an error message. *)
Definition succeeded (os : list (string * option string)) : list string :=
  omap (λ o, match o.2 with Some _ => None | None => Some o.1 end) os.

(** The category as the specification words it: strip the root, and if
    more than one segment remains, join all of them but the last. *)
Definition category_spec (ext : string) : string :=
  let rest := drop BASE_PATH_LEN (split "." ext) in
  if bool_decide (1 < length rest)%nat
  then join " - " (removelast rest)
  else "uncategorised".

(** The known units of each category, in the order of the listing. *)
Definition unit_buckets : gmap string (list string) :=
  foldl (λ m ext, setdefault_append (category_spec ext) ext m)
        ∅ (elements EXTENSIONS).
End Specification.

(** *** A host to run the commands on *)

(** Extensions are loaded unless listed as broken, in which case their
    set-up raises the given error and the framework wraps it. *)
Record SimBot : Type := mkSimBot {
  loaded : gset string;
  broken : gmap string exn;
}.

Definition sim_load (b : SimBot) (ext : string) : SimBot * option exn :=
  if decide (ext ∈ loaded b) then
    (b, Some (Plain ExtensionAlreadyLoaded "ExtensionAlreadyLoaded"
                ("Extension '" +:+ ext +:+ "' is already loaded.")))
  else
    match broken b !! ext with
    | Some e =>
        (b, Some (Wrapper OtherException "ExtensionFailed"
                    ("Extension '" +:+ ext +:+ "' raised an error: "
                     +:+ class_name e +:+ ": " +:+ detail e) e))
    | None => (mkSimBot ({[ext]} ∪ loaded b) (broken b), None)
    end.

Definition sim_unload (b : SimBot) (ext : string) : SimBot * option exn :=
  if decide (ext ∈ loaded b) then
    (mkSimBot (loaded b ∖ {[ext]}) (broken b), None)
  else
    (b, Some (Plain ExtensionNotLoaded "ExtensionNotLoaded"
                ("Extension '" +:+ ext +:+ "' has not been loaded."))).

Definition sim_reload (b : SimBot) (ext : string) : SimBot * option exn :=
  if decide (ext ∈ loaded b) then
    match broken b !! ext with
    | Some e =>
        (b, Some (Wrapper OtherException "ExtensionFailed"
                    ("Extension '" +:+ ext +:+ "' raised an error: "
                     +:+ class_name e +:+ ": " +:+ detail e) e))
    | None => (b, None)
    end
  else
    (b, Some (Plain ExtensionNotLoaded "ExtensionNotLoaded"
                ("Extension '" +:+ ext +:+ "' has not been loaded."))).

Definition sim_host : Host := {|
  Bot := SimBot;
  bot_extensions := loaded;
  load_extension := sim_load;
  unload_extension := sim_unload;
  reload_extension := sim_reload;
|}.

Definition sim_repo : Repo := {|
  EXTENSIONS := {[ "bot.exts.utils.extensions"; "bot.exts.twemoji.twemoji";
                   "bot.exts.utils.ping"; "bot.exts.core" ]};
  status_online := ":status_online:";
  status_offline := ":status_offline:";
  Embed := string * string;
  create_embed := pair;
|}.

Definition sim_world (b : SimBot) : @World sim_host sim_repo :=
  @mkWorld sim_host sim_repo b [] [] [].

(** The sample worlds of the examples. *)

Definition ext_extensions : string := "bot.exts.utils.extensions".
Definition ext_ping : string := "bot.exts.utils.ping".
Definition ext_twemoji : string := "bot.exts.twemoji.twemoji".
Definition ext_core : string := "bot.exts.core".

(** Two extensions are loaded; the set-up of [bot.exts.core] loads another
    extension, which fails, so its error arrives wrapped twice. *)
Definition boom : exn := Plain OtherException "ValueError" "boom".

Definition nested : exn :=
  Wrapper OtherException "ExtensionFailed"
    "Extension 'bot.exts.fun' raised an error: ValueError: boom" boom.

Definition b0 : SimBot :=
  mkSimBot {[ ext_extensions; ext_ping ]} {[ ext_core := nested ]}.

Definition b1 : SimBot :=
  mkSimBot {[ ext_ping; ext_core ]} ∅.

Definition w0 : @World sim_host sim_repo := sim_world b0.

End Extensions.

(* ================================================================== *)
(** ** Properties of twemoji.py *)
(* ================================================================== *)
Module TwemojiProofs.
Import Twemoji.
Local Open Scope N_scope.

Lemma hex_go_fuel f1 : ∀ f2 n acc,
  n < 16 ^ N.of_nat (S f1) → n < 16 ^ N.of_nat (S f2) →
  hex_go (S f1) n acc = hex_go (S f2) n acc.
Proof.
  induction f1 as [|f1 IH]; intros f2 n acc H1 H2.
  - change (16 ^ N.of_nat 1) with 16 in H1.
    cbn [hex_go]. apply N.ltb_lt in H1. by rewrite H1.
  - cbn [hex_go]. destruct (N.ltb_spec n 16) as [Hlt|Hge]; [done|].
    fold (hex_go (S f1)).
    destruct f2 as [|f2].
    { change (16 ^ N.of_nat 1) with 16 in H2. lia. }
    fold (hex_go (S f2)).
    apply IH.
    + rewrite Nat2N.inj_succ, N.pow_succ_r' in H1.
      apply N.Div0.div_lt_upper_bound. lia.
    + rewrite Nat2N.inj_succ, N.pow_succ_r' in H2.
      apply N.Div0.div_lt_upper_bound. lia.
Qed.

Lemma hex_go_acc f : ∀ n acc, hex_go f n acc = hex_go f n [] ++ acc.
Proof.
  induction f as [|f IH]; intros n acc; [done|].
  cbn [hex_go]. destruct (n <? 16); [done|].
  rewrite IH, (IH _ [_]), <- app_assoc. done.
Qed.

Lemma hex_digits_bound n : n < 16 ^ N.of_nat (S (N.to_nat (N.log2 n))).
Proof.
  rewrite Nat2N.inj_succ, N2Nat.id.
  destruct (decide (n = 0)) as [->|Hn]; [done|].
  pose proof (N.log2_spec n ltac:(lia)) as [_ Hub].
  eapply N.lt_le_trans; [exact Hub|].
  apply N.pow_le_mono_l. lia.
Qed.

Lemma hex_digits_small n : n < 16 → hex_digits n = [hex_char n].
Proof.
  intros Hn. unfold hex_digits. cbn [hex_go].
  apply N.ltb_lt in Hn as Hn'. rewrite Hn'.
  by rewrite N.mod_small.
Qed.

Lemma hex_digits_step n :
  16 ≤ n → hex_digits n = hex_digits (n / 16) ++ [hex_char (n mod 16)].
Proof.
  intros Hn. unfold hex_digits at 1. cbn [hex_go].
  destruct (N.ltb_spec n 16) as [?|_]; [lia|].
  rewrite hex_go_acc. f_equal.
  pose proof (hex_digits_bound n) as Hb.
  destruct (N.to_nat (N.log2 n)) as [|k] eqn:Hk.
  { change (16 ^ N.of_nat 1) with 16 in Hb. lia. }
  unfold hex_digits. apply hex_go_fuel.
  - rewrite Nat2N.inj_succ, N.pow_succ_r' in Hb.
    apply N.Div0.div_lt_upper_bound. lia.
  - apply hex_digits_bound.
Qed.

Lemma hex_char_af09 d : d < 16 → in_af09 (hex_char d) = true.
Proof.
  intros Hd. unfold in_af09, hex_char.
  destruct (N.ltb_spec d 10);
    repeat match goal with
           | |- context [(?a <=? ?b)] => destruct (N.leb_spec a b)
           end; try done; lia.
Qed.

Lemma hex_char_af19 d : 0 < d → d < 16 → in_af19 (hex_char d) = true.
Proof.
  intros H0 Hd. unfold in_af19, hex_char.
  destruct (N.ltb_spec d 10);
    repeat match goal with
           | |- context [(?a <=? ?b)] => destruct (N.leb_spec a b)
           end; try done; lia.
Qed.

Lemma hex_val_char d : d < 16 → hex_val (hex_char d) = Some d.
Proof.
  intros Hd. unfold hex_val, hex_char.
  destruct (N.ltb_spec d 10);
    repeat match goal with
           | |- context [(?a <=? ?b)] => destruct (N.leb_spec a b)
           end; cbn [andb]; try (f_equal; lia); lia.
Qed.

Lemma int16_go_app a s t :
  int16_go a (s ++ t) = int16_go a s ≫= λ b, int16_go b t.
Proof.
  revert a. induction s as [|c s IH]; intros a; [done|].
  cbn [app int16_go]. destruct (hex_val c); [apply IH|done].
Qed.

(** What [hex] prints, digit by digit. *)
Lemma hex_digits_spec n :
  Forall (λ c, in_af09 c = true) (hex_digits n)
  ∧ int16_go 0 (hex_digits n) = Some n
  ∧ n < 16 ^ N.of_nat (length (hex_digits n))
  ∧ (0 < n →
     16 ^ N.of_nat (pred (length (hex_digits n))) ≤ n
     ∧ ∃ c s, hex_digits n = c :: s ∧ in_af19 c = true).
Proof.
  induction (N.lt_wf_0 n) as [n _ IH].
  destruct (N.lt_ge_cases n 16) as [Hlt|Hge].
  - rewrite hex_digits_small by done. cbn [length pred].
    split_and!.
    + repeat constructor. by apply hex_char_af09.
    + cbn [int16_go]. rewrite hex_val_char by done. f_equal; lia.
    + done.
    + intros Hpos. split; [change (16 ^ N.of_nat 0) with 1; lia|].
      eexists _, _. split; [done|]. by apply hex_char_af19.
  - rewrite hex_digits_step by done.
    assert (n / 16 < n) as Hdiv by (apply N.div_lt; lia).
    assert (0 < n / 16) as Hpos by (apply N.div_str_pos; lia).
    destruct (IH _ Hdiv) as (Hall & Hint & Hub & Hlow).
    destruct (Hlow Hpos) as (Hlb & c & s & Hcs & Hc).
    pose proof (N.mod_upper_bound n 16 ltac:(lia)) as Hmod.
    pose proof (N.div_mod n 16 ltac:(lia)) as Hdm.
    rewrite length_app, Nat.add_1_r. cbn [pred length].
    split_and!.
    + apply Forall_app. split; [done|].
      repeat constructor. by apply hex_char_af09.
    + rewrite int16_go_app, Hint. cbn [mbind option_bind int16_go].
      rewrite hex_val_char by done. by rewrite <- Hdm.
    + rewrite Nat2N.inj_succ, N.pow_succ_r'.
      clear -Hub Hdm Hmod.
      generalize dependent (16 ^ N.of_nat (length (hex_digits (n / 16)))). lia.
    + intros _. split.
      * rewrite Hcs in Hlb |- *. cbn [length pred] in Hlb.
        cbn [length]. rewrite Nat2N.inj_succ, N.pow_succ_r'.
        clear -Hlb Hdm. generalize dependent (16 ^ N.of_nat (length s)). intros X HX. etrans; [apply N.mul_le_mono_l, HX | apply N.Div0.mul_div_le].
      * exists c, (s ++ [hex_char (n mod 16)]). by rewrite Hcs.
Qed.

Lemma forallb_of_Forall {A} (f : A → bool) (l : list A) :
  Forall (λ x, f x = true) l → forallb f l = true.
Proof. induction 1 as [|x l Hx _ IH]; [done|]. cbn. by rewrite Hx, IH. Qed.

Lemma tail_matches_exact k rest :
  length rest = k → forallb in_af09 rest = true → tail_matches k rest = true.
Proof.
  intros Hk Hall. unfold tail_matches.
  rewrite bool_decide_eq_true_2 by lia.
  rewrite take_ge, drop_ge by lia. by rewrite Hall.
Qed.

Lemma tail_matches_short k rest :
  (length rest < k)%nat → tail_matches k rest = false.
Proof.
  intros Hk. unfold tail_matches. by rewrite bool_decide_eq_false_2 by lia.
Qed.

(** A whole string of the shape of [CODE] is its own leftmost match. *)
Lemma CODE_search_whole c rest :
  in_af19 c = true → forallb in_af09 rest = true →
  (3 ≤ length rest ≤ 5)%nat →
  CODE_search (c :: rest) = Some (c :: rest).
Proof.
  intros Hc Hall Hlen.
  assert (CODE_match (c :: rest) = Some (c :: rest)) as Hm.
  { unfold CODE_match. rewrite Hc.
    assert (length rest = 5 ∨ length rest = 4 ∨ length rest = 3)%nat
      as [H|[H|H]] by lia.
    - rewrite tail_matches_exact, take_ge by (done || lia). done.
    - rewrite (tail_matches_short 5) by lia.
      rewrite tail_matches_exact, take_ge by (done || lia). done.
    - rewrite (tail_matches_short 5), (tail_matches_short 4) by lia.
      rewrite tail_matches_exact, take_ge by (done || lia). done. }
  destruct rest; cbn [CODE_search]; by rewrite Hm.
Qed.

Lemma CODE_match_short s : (length s < 4)%nat → CODE_match s = None.
Proof.
  intros Hlen. destruct s as [|c rest]; [done|]. cbn [length] in Hlen.
  unfold CODE_match.
  rewrite !tail_matches_short by lia. by destruct (in_af19 c).
Qed.

(** Nothing shorter than four characters contains a match. *)
Lemma CODE_search_short s : (length s < 4)%nat → CODE_search s = None.
Proof.
  induction s as [|c s IH]; intros Hlen; [done|].
  cbn [CODE_search]. rewrite CODE_match_short by done.
  apply IH. cbn [length] in Hlen. lia.
Qed.

Lemma hex_digits_length_large c :
  0x1000 ≤ c → c ≤ MAX_CODEPOINT → (4 ≤ length (hex_digits c) ≤ 6)%nat.
Proof.
  intros Hlo Hhi. unfold MAX_CODEPOINT in Hhi.
  destruct (hex_digits_spec c) as (_ & _ & Hub & Hlow).
  destruct Hlow as [Hlb _]; [lia|].
  split.
  - assert (16 ^ 3 < 16 ^ N.of_nat (length (hex_digits c))) as H
      by (change (16 ^ 3) with 0x1000; lia).
    apply N.pow_lt_mono_r_iff in H; lia.
  - assert (16 ^ N.of_nat (pred (length (hex_digits c))) < 16 ^ 6) as H
      by (change (16 ^ 6) with 0x1000000; lia).
    apply N.pow_lt_mono_r_iff in H; lia.
Qed.

Lemma hex_digits_length_small c :
  c < 0x1000 → (length (hex_digits c) < 4)%nat.
Proof.
  intros Hhi.
  destruct (decide (c = 0)) as [->|Hc]; [cbn; lia|].
  destruct (hex_digits_spec c) as (_ & _ & _ & Hlow).
  destruct Hlow as [Hlb _]; [lia|].
  assert (16 ^ N.of_nat (pred (length (hex_digits c))) < 16 ^ 3) as H
    by (change (16 ^ 3) with 0x1000; lia).
  apply N.pow_lt_mono_r_iff in H; lia.
Qed.

Lemma trim_code_hex_large c :
  0x1000 ≤ c → c ≤ MAX_CODEPOINT →
  trim_code (Some (hex_digits c)) = Some (hex_digits c).
Proof.
  intros Hlo Hhi.
  pose proof (hex_digits_length_large c Hlo Hhi) as Hlen.
  destruct (hex_digits_spec c) as (Hall & _ & _ & Hlow).
  destruct Hlow as (_ & d & s & Hds & Hd); [lia|].
  rewrite Hds in *. cbn [length] in Hlen.
  unfold trim_code. cbn [truthy negb].
  apply CODE_search_whole; [done| |lia].
  apply forallb_of_Forall. by inversion Hall.
Qed.

Lemma trim_code_hex_small c :
  c < 0x1000 → trim_code (Some (hex_digits c)) = None.
Proof.
  intros Hhi. unfold trim_code.
  destruct (truthy _); [|done].
  cbn [negb]. by apply CODE_search_short, hex_digits_length_small.
Qed.

Lemma roundtrip_large c :
  0x1000 ≤ c → c ≤ MAX_CODEPOINT → roundtrip [c] = Ret [c].
Proof.
  intros Hlo Hhi. unfold roundtrip, codepoint, emoji. cbn [ord mbind result_bind].
  change (drop 2 (hex c)) with (hex_digits c).
  rewrite trim_code_hex_large by done.
  destruct (hex_digits_spec c) as (_ & Hint & _ & _).
  destruct (hex_digits c) as [|d s] eqn:Hds.
  { cbn [int16_go] in Hint. injection Hint as <-. lia. }
  cbn [truthy]. unfold int16. rewrite Hint. cbn [mbind result_bind].
  unfold chr. apply N.leb_le in Hhi. by rewrite Hhi.
Qed.

Lemma roundtrip_small c : c < 0x1000 → roundtrip [c] = Ret [].
Proof.
  intros Hhi. unfold roundtrip, codepoint, emoji. cbn [ord mbind result_bind].
  change (drop 2 (hex c)) with (hex_digits c).
  by rewrite trim_code_hex_small.
Qed.

(** C10.  For a single character [c], [emoji(codepoint(c))] is [c] exactly
    when [c] is at least 0x1000, and is the empty string, without raising,
    below that: [trim_code] finds the code in what [hex] prints only when it
    has four to six digits. *)
Theorem emoji_codepoint_roundtrip (c : N) :
  c ≤ MAX_CODEPOINT →
  (roundtrip [c] = Ret [c] ↔ 0x1000 ≤ c)
  ∧ (c < 0x1000 → roundtrip [c] = Ret [])
  ∧ trim_code (Some (hex_digits c))
    = if 0x1000 <=? c then Some (hex_digits c) else None.
Proof.
  intros Hhi. split_and!.
  - split; [|by intros; apply roundtrip_large].
    intros Hrt. destruct (N.le_gt_cases 0x1000 c) as [|Hlt]; [done|].
    rewrite roundtrip_small in Hrt by done. discriminate Hrt.
  - apply roundtrip_small.
  - destruct (N.leb_spec 0x1000 c).
    + by apply trim_code_hex_large.
    + by apply trim_code_hex_small.
Qed.

Lemma emoji_codepoint_roundtrip_witness :
  (roundtrip [0x1f40d] = Ret [0x1f40d] ↔ 0x1000 ≤ 0x1f40d)
  ∧ (0x1f40d < 0x1000 → roundtrip [0x1f40d] = Ret [])
  ∧ trim_code (Some (hex_digits 0x1f40d))
    = if 0x1000 <=? 0x1f40d then Some (hex_digits 0x1f40d) else None.
Proof.
  apply (emoji_codepoint_roundtrip 0x1f40d). unfold MAX_CODEPOINT. lia.
Defined.

(** *** [codepoint_from_input] *)

Lemma for_each_codepoint (e : pystr) :
  for_each codepoint (chars e) = Ret (hex_digits <$> e).
Proof.
  induction e as [|c e IH]; [done|].
  cbn [chars fmap list_fmap for_each]. fold (chars e). rewrite IH. done.
Qed.

Lemma int16_raises s e : int16 s = Raise e → is_ValueError e.
Proof.
  unfold int16. destruct s; [intros [= <-]; by eexists|].
  destruct (int16_go _ _); [done|]. intros [= <-]. by eexists.
Qed.

Lemma chr_raises n e : chr n = Raise e → is_ValueError e.
Proof.
  unfold chr. destruct (_ <=? _); [done|]. intros [= <-]. by eexists.
Qed.

Lemma emoji_raises x e : emoji x = Raise e → is_ValueError e.
Proof.
  unfold emoji. destruct (truthy _); [|done].
  destruct (trim_code x) as [c|]; [|done].
  destruct (int16 c) as [n|e'] eqn:Hint; cbn.
  - apply chr_raises.
  - intros [= <-]. by eapply int16_raises.
Qed.

Lemma for_each_raises {A B} (f : A → result B) l e (P : exn → Prop) :
  (∀ x e, f x = Raise e → P e) → for_each f l = Raise e → P e.
Proof.
  intros Hf. induction l as [|x l IH]; [done|].
  cbn [for_each]. destruct (f x) as [y|e'] eqn:Hx; cbn.
  - destruct (for_each f l); cbn; [done|]. intros [= <-]. by apply IH.
  - intros [= <-]. by eapply Hf.
Qed.

Section CodepointFromInputProofs.
Variable lower : pystr → pystr.
Variable EMOJI_DATA : gset pystr.

(** Whenever the input has a token, the result is the canonical form of an
    emoji of the table, or a [ValueError]. *)
Lemma codepoint_from_input_nonblank raw :
  split raw ≠ [] →
  (∃ e, e ∈ EMOJI_DATA
        ∧ codepoint_from_input lower EMOJI_DATA raw = Ret (canonical e))
  ∨ (∃ err, is_ValueError err
            ∧ codepoint_from_input lower EMOJI_DATA raw = Raise err).
Proof.
  intros Hne. unfold codepoint_from_input.
  destruct (split raw) as [|tok toks]; [done|].
  cbn [fmap list_fmap index0 mbind result_bind].
  unfold is_emoji.
  destruct (decide (lower tok ∈ EMOJI_DATA)) as [Hfirst|Hfirst].
  - rewrite bool_decide_eq_true_2 by done.
    left. exists (lower tok). split; [done|].
    by rewrite for_each_codepoint.
  - rewrite bool_decide_eq_false_2 by done.
    destruct (for_each _ (lower tok :: _)) as [parts|err] eqn:Hparts.
    + cbn [mbind result_bind].
      destruct (decide (concat parts ∈ EMOJI_DATA)) as [Hcat|Hcat].
      * rewrite bool_decide_eq_true_2 by done.
        left. exists (concat parts). split; [done|].
        by rewrite for_each_codepoint.
      * rewrite bool_decide_eq_false_2 by done.
        right. eexists. split; [|reflexivity]. by eexists.
    + right. exists err. split; [|done].
      eapply for_each_raises; [|exact Hparts].
      intros x e. apply emoji_raises.
Qed.

(** C9, at the input of one space: there is no token, and indexing the
    empty list of tokens raises [IndexError], which is not a [ValueError]
    and not a code point string. *)
Theorem codepoint_from_input_blank :
  codepoint_from_input lower EMOJI_DATA (lit " ")
  = Raise (IndexError "list index out of range").
Proof. reflexivity. Qed.
End CodepointFromInputProofs.

(** The examples of the docstrings. *)

Example trim_code_prefixed :
  trim_code (Some (lit "U+1f1f8")) = Some (lit "1f1f8").
Proof. reflexivity. Qed.

Example trim_code_plain : trim_code (Some (lit "1f466")) = Some (lit "1f466").
Proof. reflexivity. Qed.

Example codepoint_from_input_glyph :
  codepoint_from_input ascii_lower {[ [0x1f40d] ]} [0x1f40d] = Ret (lit "1f40d").
Proof. vm_compute. reflexivity. Qed.

Example codepoint_from_input_codes :
  codepoint_from_input ascii_lower {[ [0x1f1f8; 0x1f1ea] ]} (lit "1f1f8 1f1ea")
  = Ret (lit "1f1f8-1f1ea").
Proof. vm_compute. reflexivity. Qed.

End TwemojiProofs.

(* ================================================================== *)
(** ** Properties of extensions.py *)
(* ================================================================== *)
Module ExtensionsProofs.
Import Extensions.

Section ManageProofs.
Context `{HH : Host, RR : Repo}.

Lemma manage_rec_success d action ext w b :
  Action_value action (bot w) ext = (b, None) →
  manage_rec (S d) action ext w
  = (logged (called w action ext b) DEBUG
       (slice_from 10 (msg_success action ext)),
     Ret (msg_success action ext, None)).
Proof.
  intros Hop. cbn [manage_rec]. unfold try_except_else, call.
  rewrite Hop. reflexivity.
Qed.

Lemma manage_rec_already d action ext w b e :
  Action_value action (bot w) ext = (b, Some e) →
  is_load_state_error e = true → action ≠ RELOAD →
  manage_rec (S d) action ext w
  = (logged (called w action ext b) DEBUG
       (slice_from 4 (msg_already action ext)),
     Ret (msg_already action ext, None)).
Proof.
  intros Hop He Hact. cbn [manage_rec]. unfold try_except_else, call.
  rewrite Hop, He. by destruct (decide (action = RELOAD)).
Qed.

Lemma manage_rec_fallback d ext w b e :
  reload_extension (bot w) ext = (b, Some e) →
  is_load_state_error e = true →
  manage_rec (S d) RELOAD ext w = manage_rec d LOAD ext (called w RELOAD ext b).
Proof.
  intros Hop He. cbn [manage_rec]. unfold try_except_else, call.
  cbn [Action_value]. rewrite Hop, He. reflexivity.
Qed.

Lemma manage_rec_failure d action ext w b e :
  Action_value action (bot w) ext = (b, Some e) →
  is_load_state_error e = false →
  manage_rec (S d) action ext w
  = (logged (called w action ext b) ERROR
       ("Extension '" +:+ ext +:+ "' failed to " +:+ verb action +:+ "."),
     Ret (msg_failed action ext (describe (reported_cause e)),
          Some (describe (reported_cause e)))).
Proof.
  intros Hop He. cbn [manage_rec]. unfold try_except_else, call.
  rewrite Hop, He. by destruct e.
Qed.

Lemma manage_rec_load_like d action ext w :
  action ≠ RELOAD →
  ∃ w' out, manage_rec (S d) action ext w = (w', Ret out)
    ∧ calls w' = calls w ++ [(action, ext)]
    ∧ sent w' = sent w
    ∧ (∀ err, out.2 = Some err → truthy err = true).
Proof.
  intros Hact.
  destruct (Action_value action (bot w) ext) as [b [e|]] eqn:Hop.
  - destruct (is_load_state_error e) eqn:He.
    + eexists _, _. split; [by eapply manage_rec_already|]. by split_and!.
    + eexists _, _. split; [by eapply manage_rec_failure|].
      split_and!; [done..|]. intros err [= <-]. unfold describe.
      by destruct (class_name _).
  - eexists _, _. split; [by eapply manage_rec_success|]. by split_and!.
Qed.

Lemma manage_rec_returns d action ext w :
  ∃ w' out trace, manage_rec (S (S d)) action ext w = (w', Ret out)
    ∧ calls w' = calls w ++ trace
    ∧ manage_trace action ext trace
    ∧ sent w' = sent w
    ∧ (∀ err, out.2 = Some err → truthy err = true).
Proof.
  destruct (decide (action = RELOAD)) as [->|Hact].
  - destruct (reload_extension (bot w) ext) as [b [e|]] eqn:Hop.
    + destruct (is_load_state_error e) eqn:He.
      * rewrite (manage_rec_fallback _ _ _ _ _ Hop He).
        destruct (manage_rec_load_like d LOAD ext (called w RELOAD ext b))
          as (w' & out & Hm & Hc & Hs & Herr); [done|].
        exists w', out, [(RELOAD, ext); (LOAD, ext)].
        split_and!; [done| |by constructor|done..].
        rewrite Hc. cbn [calls called]. by rewrite <- app_assoc.
      * eexists _, _, _. split; [by eapply manage_rec_failure|].
        split_and!; [done|constructor|done|].
        intros err [= <-]. unfold describe. by destruct (class_name _).
    + eexists _, _, _. split; [by eapply manage_rec_success|].
      split_and!; [done|constructor|done..].
  - destruct (manage_rec_load_like (S d) action ext w Hact)
      as (w' & out & Hm & Hc & Hs & Herr).
    exists w', out, [(action, ext)]. split_and!; [done..|constructor|done|done].
Qed.

(** A nesting depth of two is always enough. *)
Lemma manage_rec_depth d action ext w :
  manage_rec (S (S d)) action ext w = manage action ext w.
Proof.
  unfold manage.
  assert (∀ d a w, a ≠ RELOAD → manage_rec (S d) a ext w = manage_rec 1 a ext w)
    as Hload.
  { intros d' a w' Ha.
    destruct (Action_value a (bot w') ext) as [b [e|]] eqn:Hop.
    - destruct (is_load_state_error e) eqn:He.
      + by rewrite !(manage_rec_already _ _ _ _ _ _ Hop He Ha).
      + by rewrite !(manage_rec_failure _ _ _ _ _ _ Hop He).
    - by rewrite !(manage_rec_success _ _ _ _ _ Hop). }
  destruct (decide (action = RELOAD)) as [->|Hact].
  - destruct (reload_extension (bot w) ext) as [b [e|]] eqn:Hop.
    + destruct (is_load_state_error e) eqn:He.
      * rewrite !(manage_rec_fallback _ _ _ _ _ Hop He). by apply Hload.
      * by rewrite !(manage_rec_failure _ RELOAD _ _ _ _ Hop He).
    + by rewrite !(manage_rec_success _ RELOAD _ _ _ Hop).
  - rewrite (Hload (S d)), (Hload 1%nat); done.
Qed.

(** *** [batch_manage] *)

Lemma manage_trace_filter action ext trace :
  manage_trace action ext trace →
  filter (λ c, c.1 = action) trace = [(action, ext)].
Proof.
  intros [ | -> ].
  - rewrite filter_cons_True by done. by rewrite filter_nil.
  - rewrite filter_cons_True by done.
    rewrite filter_cons_False by done. by rewrite filter_nil.
Qed.

Lemma manage_each_runs action exts : ∀ failures w,
  ∃ w' failures' trace,
    manage_each action exts failures w = (w', Ret failures')
    ∧ calls w' = calls w ++ trace
    ∧ filter (λ c, c.1 = action) trace = (λ e, (action, e)) <$> exts
    ∧ sent w' = sent w.
Proof.
  induction exts as [|ext exts IH]; intros failures w.
  - exists w, failures, []. split_and!; [done| |done..].
    by rewrite app_nil_r.
  - cbn [manage_each]. unfold bind.
    destruct (manage_rec_returns 0 action ext w)
      as (w1 & out & t1 & Hm & Hc1 & Ht1 & Hs1 & _).
    fold (manage action ext w) in Hm. rewrite Hm.
    match goal with |- context [manage_each action exts ?f w1] =>
      destruct (IH f w1) as (w2 & fs2 & t2 & Hm2 & Hc2 & Ht2 & Hs2)
    end.
    exists w2, fs2, (t1 ++ t2). split_and!.
    + done.
    + by rewrite Hc2, Hc1, <- app_assoc.
    + rewrite filter_app, Ht2, (manage_trace_filter _ _ _ Ht1). done.
    + congruence.
Qed.

Lemma dict_set_fresh k v (d : list (string * string)) :
  k ∉ d.*1 → dict_set k v d = d ++ [(k, v)].
Proof.
  induction d as [|[k' v'] d IH]; intros Hk; [done|].
  cbn [dict_set]. rewrite fmap_cons, not_elem_of_cons in Hk.
  destruct Hk as [Hne Hk]. cbn in Hne.
  destruct (decide (k = k')); [done|]. by rewrite IH.
Qed.

Lemma manage_each_failed action exts : ∀ failures w,
  NoDup exts → (∀ e, e ∈ exts → e ∉ failures.*1) →
  ∃ w', manage_each action exts failures w
        = (w', Ret (failures ++ failed (outcomes action exts w))).
Proof.
  induction exts as [|ext exts IH]; intros failures w Hnd Hfresh.
  - exists w. cbn. by rewrite app_nil_r.
  - apply NoDup_cons in Hnd as [Hext Hnd].
    cbn [manage_each outcomes]. unfold bind.
    destruct (manage_rec_returns 0 action ext w)
      as (w1 & [msg err] & t1 & Hm & _ & _ & _ & Herr).
    fold (manage action ext w) in Hm. rewrite Hm. cbn [snd] in *.
    destruct err as [err|].
    + rewrite (Herr err eq_refl).
      rewrite dict_set_fresh by (apply Hfresh; left).
      destruct (IH (failures ++ [(ext, err)]) w1 Hnd) as [w2 Hw2].
      { intros e He. rewrite fmap_app, elem_of_app. intros [Hin|Hin].
        - eapply Hfresh; [by right|done].
        - cbn in Hin. apply list_elem_of_singleton in Hin. congruence. }
      exists w2. rewrite Hw2. unfold failed. cbn [omap list_omap snd fst].
      by rewrite <- app_assoc.
    + destruct (IH failures w1 Hnd) as [w2 Hw2].
      { intros e He. apply Hfresh. by right. }
      exists w2. by rewrite Hw2.
Qed.

Lemma outcomes_length action exts : ∀ w,
  length (outcomes action exts w) = length exts.
Proof.
  induction exts as [|ext exts IH]; intros w; [done|].
  cbn [outcomes]. destruct (manage action ext w) as [w1 r].
  cbn [length]. by rewrite IH.
Qed.

Lemma succeeded_failed_length (os : list (string * option string)) :
  length (succeeded os) + length (failed os) = length os.
Proof.
  induction os as [|[ext [err|]] os IH]; [done|..];
    unfold succeeded, failed in *; cbn [omap list_omap snd fst length] in *; lia.
Qed.

(** C2.  Whatever the host operations do, [manage] returns, and so does
    [batch_manage]: it raises nothing, and the operation of the action has
    been invoked once for every unit, in the order of the input, whether or
    not earlier units failed.  An exception that is not one of the two
    load-state signals ends up as the error entry of its unit. *)
Theorem batch_manage_never_raises action exts w :
  (∀ ext w0, ∃ w' out, manage action ext w0 = (w', Ret out))
  ∧ (∃ w' report trace,
      batch_manage action exts w = (w', Ret report)
      ∧ calls w' = calls w ++ trace
      ∧ filter (λ c, c.1 = action) trace = (λ e, (action, e)) <$> exts)
  ∧ (∀ ext w0 b e,
      Action_value action (bot w0) ext = (b, Some e) →
      kind e = OtherException →
      ∃ w' msg, manage action ext w0
                = (w', Ret (msg, Some (describe (reported_cause e))))).
Proof.
  split_and!.
  - intros ext w0.
    destruct (manage_rec_returns 0 action ext w0) as (w' & out & _ & Hm & _).
    by exists w', out.
  - assert (∃ w' report trace,
      bind (manage_each action exts [])
        (λ failures,
          let msg := pretty (Z.of_nat (length exts)
                             - Z.of_nat (length failures))%Z
                     +:+ " / " +:+ pretty (Z.of_nat (length exts))
                     +:+ " extensions " +:+ verb action +:+ "ed." in
          let status := negb (bool_decide (failures = [])) in
          let msg :=
            if status then
              msg +:+ nl +:+ nl +:+ "**Failures:**```" +:+ nl
                  +:+ failure_lines failures +:+ "```"
            else msg in
          bind (logger DEBUG ("Batch " +:+ verb action +:+ "ed extensions."))
               (λ _, ret (msg, status))) w = (w', Ret report)
      ∧ calls w' = calls w ++ trace
      ∧ filter (λ c, c.1 = action) trace = (λ e, (action, e)) <$> exts)
      as Hloop.
    { unfold bind at 1.
      destruct (manage_each_runs action exts [] w)
        as (w1 & fs & trace & Hm & Hc & Hf & _).
      rewrite Hm. eexists _, _, trace. split; [reflexivity|]. by split. }
    destruct exts as [|ext [|ext' exts]]; [exact Hloop| |exact Hloop].
    cbn [batch_manage]. unfold bind.
    destruct (manage_rec_returns 0 action ext w)
      as (w' & out & trace & Hm & Hc & Ht & _).
    fold (manage action ext w) in Hm. rewrite Hm.
    eexists _, _, trace. split; [reflexivity|]. split; [done|].
    by apply manage_trace_filter.
  - intros ext w0 b e Hop Hkind. eexists _, _.
    apply manage_rec_failure; [done|].
    unfold is_load_state_error. by rewrite Hkind.
Qed.

(** C4.  For a batch of two or more distinct units, the units without an
    error and the failed units add up to the units requested; the report
    reads "K / N extensions <verb>ed." with N the number of units and K that
    number minus the number of failed units, followed, when a unit failed,
    by the block that lists every failed unit with its error message; the
    error flag is set exactly when a unit failed. *)
Theorem batch_manage_report action exts w :
  NoDup exts → 2 ≤ length exts →
  let os := outcomes action exts w in
  length (succeeded os) + length (failed os) = length exts
  ∧ (Z.of_nat (length exts) - Z.of_nat (length (failed os)))%Z
    = Z.of_nat (length (succeeded os))
  ∧ ∃ w', batch_manage action exts w
          = (w', Ret (summary action (length exts) (failed os),
                      negb (bool_decide (failed os = [])))).
Proof.
  intros Hnd Hlen os.
  pose proof (succeeded_failed_length os) as Hsum.
  unfold os in Hsum at 3. rewrite outcomes_length in Hsum.
  split; [done|]. split; [lia|].
  destruct (manage_each_failed action exts [] w Hnd) as [w1 Hm].
  { intros e _. cbn. apply not_elem_of_nil. }
  cbn [app] in Hm. fold os in Hm.
  destruct exts as [|ext [|ext' exts]]; cbn [length] in Hlen; [lia..|].
  cbn [batch_manage]. unfold bind at 1. rewrite Hm.
  eexists. unfold bind, logger, ret, summary. cbn [fst snd].
  by destruct (failed os).
Qed.

(** C1.  When a requested target of [unload_command] is on
    [UNLOAD_BLACKLIST], whether or not a wildcard is among the targets, the
    command leaves the bot as it was, invokes no host operation, and sends
    one embed marked as an error that lists exactly the requested targets
    that are on the list. *)
Theorem unload_blacklisted_aborts exts w :
  UNLOAD_BLACKLIST ∩ list_to_set exts ≠ ∅ →
  ∃ w', unload_command exts w = (w', Ret tt)
    ∧ bot w' = bot w ∧ calls w' = calls w ∧ log w' = log w
    ∧ sent w' = sent w ++
        [Send (create_embed "error"
           ("The following extension(s) may not be unloaded:```" +:+ nl
            +:+ join nl (elements (UNLOAD_BLACKLIST ∩ list_to_set exts))
            +:+ "```"))].
Proof.
  intros Hbl.
  assert (UNLOAD_BLACKLIST ∩ list_to_set exts
          = ({[ "bot.exts.utils.extensions" ]} : gset string)) as Hinter.
  { apply set_choose_L in Hbl as [y Hy]. revert Hy.
    unfold UNLOAD_BLACKLIST.
    change (exts_name +:+ ".utils.extensions")
      with "bot.exts.utils.extensions".
    rewrite elem_of_intersection, elem_of_singleton. intros [-> Hy].
    apply set_eq. intros x.
    rewrite elem_of_intersection, elem_of_singleton.
    split; [by intros [-> _]|by intros ->]. }
  destruct exts as [|ext exts].
  { exfalso. apply Hbl. set_solver. }
  unfold unload_command. rewrite Hinter, elements_singleton.
  cbn [join String.concat truthy]. unfold bind, ret, ctx_send.
  eexists. by split_and!.
Qed.

(** C3.  On a host that refuses to reload what is not loaded, reloading a
    unit that is not loaded gives the status message and error message that
    loading it gives, and leaves the bot, the log and the channel the same;
    [manage] calls itself once for that, and one level of nesting is
    enough whatever the bound. *)
Theorem reload_unloaded_is_load ext w :
  reload_needs_loaded → ext ∉ bot_extensions (bot w) →
  ∃ w1 w2 out,
    manage RELOAD ext w = (w1, Ret out)
    ∧ manage LOAD ext w = (w2, Ret out)
    ∧ bot w1 = bot w2 ∧ log w1 = log w2 ∧ sent w1 = sent w2
    ∧ calls w1 = calls w ++ [(RELOAD, ext); (LOAD, ext)]
    ∧ ∀ d, manage_rec (2 + d) RELOAD ext w = manage RELOAD ext w.
Proof.
  intros Hlaw Hext.
  destruct (Hlaw (bot w) ext Hext) as (e & Hop & Hkind).
  assert (is_load_state_error e = true) as He.
  { unfold is_load_state_error. rewrite Hkind. done. }
  unfold manage. rewrite (manage_rec_fallback _ _ _ _ _ Hop He).
  set (w0 := called w RELOAD ext (bot w)).
  assert (∀ d, manage_rec (2 + d) RELOAD ext w = manage_rec 1 LOAD ext w0)
    as Hdepth.
  { intros d. change (2 + d)%nat with (S (S d)).
    rewrite manage_rec_depth. unfold manage.
    by rewrite (manage_rec_fallback _ _ _ _ _ Hop He). }
  destruct (load_extension (bot w) ext) as [b [e'|]] eqn:Hload.
  - destruct (is_load_state_error e') eqn:He'.
    + rewrite (manage_rec_already 0 LOAD ext w0 b e'),
        (manage_rec_already 1 LOAD ext w b e') by done.
      eexists _, _, _. split_and!; try reflexivity.
      * cbn. by rewrite <- app_assoc.
      * intros d. rewrite Hdepth.
        by rewrite (manage_rec_already 0 LOAD ext w0 b e').
    + rewrite (manage_rec_failure 0 LOAD ext w0 b e'),
        (manage_rec_failure 1 LOAD ext w b e') by done.
      eexists _, _, _. split_and!; try reflexivity.
      * cbn. by rewrite <- app_assoc.
      * intros d. rewrite Hdepth.
        by rewrite (manage_rec_failure 0 LOAD ext w0 b e').
  - rewrite (manage_rec_success 0 LOAD ext w0 b),
      (manage_rec_success 1 LOAD ext w b) by done.
    eexists _, _, _. split_and!; try reflexivity.
    * cbn. by rewrite <- app_assoc.
    * intros d. rewrite Hdepth.
      by rewrite (manage_rec_success 0 LOAD ext w0 b).
Qed.

(** C5.  On a host that refuses to load what is loaded, loading a loaded
    unit raises nothing: [manage] returns the message that the extension is
    already loaded with no error message, and the batch of that one unit
    reports the same message with the error flag unset. *)
Theorem load_already_loaded ext w :
  load_needs_unloaded → ext ∈ bot_extensions (bot w) →
  ∃ w',
    manage LOAD ext w
    = (w', Ret ("Extension `" +:+ ext +:+ "` is already loaded.", None))
    ∧ batch_manage LOAD [ext] w
      = (w', Ret ("Extension `" +:+ ext +:+ "` is already loaded.", false))
    ∧ bot w' = bot w.
Proof.
  intros Hlaw Hext.
  destruct (Hlaw (bot w) ext Hext) as (e & Hop & Hkind).
  assert (is_load_state_error e = true) as He.
  { unfold is_load_state_error. rewrite Hkind. done. }
  pose proof (manage_rec_already 1 LOAD ext w (bot w) e Hop He ltac:(done))
    as Hm.
  fold (manage LOAD ext w) in Hm.
  eexists. split_and!.
  - exact Hm.
  - cbn [batch_manage]. unfold bind. rewrite Hm. reflexivity.
  - reflexivity.
Qed.

(** C7, amended.  When the host operation raises an error that is not a
    load-state signal, the outcome is a failure whose error message is
    "{class name}: {text}" of the error's [original] when it has one, and of
    the error itself otherwise: one level is unwrapped, which reaches the
    innermost cause when that cause wraps nothing itself. *)
Theorem manage_failure_message action ext w b e :
  Action_value action (bot w) ext = (b, Some e) →
  kind e = OtherException →
  ∃ w',
    manage action ext w
    = (w', Ret (msg_failed action ext (describe (reported_cause e)),
                Some (describe (reported_cause e))))
    ∧ (original (reported_cause e) = None
       → reported_cause e = innermost e).
Proof.
  intros Hop Hkind.
  assert (is_load_state_error e = false) as He.
  { unfold is_load_state_error. rewrite Hkind. done. }
  eexists. split.
  - by apply manage_rec_failure.
  - destruct e as [| ? ? ? [|]]; cbn; done.
Qed.

(** *** The listing *)

Lemma category_of_spec ext : category_of ext = category_spec ext.
Proof.
  unfold category_of, category_spec.
  set (path := split "." ext). rewrite length_drop.
  destruct (decide (BASE_PATH_LEN + 1 < length path)) as [Hlt|Hge].
  - rewrite !bool_decide_eq_true_2 by lia. f_equal.
    rewrite removelast_firstn_len, length_drop. unfold slice_to_last.
    rewrite take_drop_commute. do 2 f_equal. lia.
  - by rewrite !bool_decide_eq_false_2 by lia.
Qed.

Lemma foldl_pointwise {A B} (f g : A → B → A) (l : list B) :
  (∀ a b, f a b = g a b) → ∀ a, foldl f a l = foldl g a l.
Proof.
  intros Hfg. induction l as [|b l IH]; intros a; [done|].
  cbn [foldl]. by rewrite Hfg, IH.
Qed.

Lemma fold_buckets_lookup (f g : string → string) (l : list string) :
  ∀ (m : gmap string (list string)) (c : string),
    foldl (λ m ext, setdefault_append (f ext) (g ext) m) m l !! c
    = match filter (λ u, f u = c) l with
      | [] => m !! c
      | us => Some (default [] (m !! c) ++ (g <$> us))
      end.
Proof.
  induction l as [|a l IH]; intros m c; [done|].
  cbn [foldl]. rewrite IH. unfold setdefault_append.
  destruct (decide (f a = c)) as [Hac|Hac].
  - rewrite filter_cons_True by done. rewrite Hac, lookup_insert_eq.
    destruct (filter _ l) as [|u us]; cbn [default]; [done|].
    unfold id. f_equal. by rewrite <- app_assoc.
  - rewrite filter_cons_False by done. by rewrite lookup_insert_ne.
Qed.

Lemma unit_buckets_lookup c :
  unit_buckets !! c
  = match filter (λ u, category_spec u = c) (elements EXTENSIONS) with
    | [] => None
    | us => Some us
    end.
Proof.
  unfold unit_buckets.
  rewrite (fold_buckets_lookup category_spec (λ u, u)), lookup_empty.
  destruct (filter _ _) as [|u us] eqn:Hus; [done|].
  cbn [default app]. by rewrite list_fmap_id.
Qed.

Lemma group_lookup b c :
  group_extension_statuses b !! c = fmap (entry_of b) <$> unit_buckets !! c.
Proof.
  unfold group_extension_statuses.
  rewrite (foldl_pointwise _
    (λ m ext, setdefault_append (category_spec ext) (entry_of b ext) m))
    by (intros; by rewrite category_of_spec).
  rewrite (fold_buckets_lookup category_spec (entry_of b)), lookup_empty.
  rewrite unit_buckets_lookup. by destruct (filter _ _).
Qed.

(** C6.  The listing is the image, entry by entry, of a partition of the
    known units: every known unit is in the bucket of its category, a
    bucket holds known units of its category only, and none twice.  The
    category is the one the specification describes. *)
Theorem group_is_partition b :
  group_extension_statuses b = fmap (M:=list) (entry_of b) <$> unit_buckets
  ∧ (∀ u, u ∈ EXTENSIONS →
       ∃ us, unit_buckets !! category_spec u = Some us ∧ u ∈ us)
  ∧ (∀ c us, unit_buckets !! c = Some us →
       NoDup us ∧ ∀ u, u ∈ us → u ∈ EXTENSIONS ∧ category_spec u = c).
Proof.
  split_and!.
  - apply map_eq. intros c. by rewrite group_lookup, lookup_fmap.
  - intros u Hu. rewrite unit_buckets_lookup.
    assert (u ∈ filter (λ v, category_spec v = category_spec u)
                       (elements EXTENSIONS)) as Hin.
    { apply list_elem_of_filter. split; [done|]. by apply elem_of_elements. }
    destruct (filter _ _) as [|v vs]; [by apply elem_of_nil in Hin|].
    by eexists.
  - intros c us. rewrite unit_buckets_lookup.
    destruct (filter _ _) as [|v vs] eqn:Hf; [done|]. intros [= <-].
    rewrite <- Hf. split.
    + apply NoDup_filter, NoDup_elements.
    + intros u [Hc Hu]%list_elem_of_filter.
      by apply elem_of_elements in Hu.
Qed.

(** C8.  The marker of a unit in the listing depends on the bot only
    through the membership of that unit in the loaded extensions: two bots
    that agree on it give the unit the same entry, at the same place. *)
Theorem status_marker_depends_on_membership b1 b2 c us i u :
  unit_buckets !! c = Some us → us !! i = Some u →
  (u ∈ bot_extensions b1 ↔ u ∈ bot_extensions b2) →
  ∃ marker,
    marker = (if bool_decide (u ∈ bot_extensions b1)
              then status_online else status_offline)
    ∧ (group_extension_statuses b1 !! c) ≫= (.!! i)
      = Some (marker +:+ "  " +:+ default "" (last (split "." u)))
    ∧ (group_extension_statuses b2 !! c) ≫= (.!! i)
      = Some (marker +:+ "  " +:+ default "" (last (split "." u))).
Proof.
  intros Hc Hi Hmem. eexists. split; [reflexivity|].
  rewrite !group_lookup, Hc. cbn [fmap option_fmap option_map mbind option_bind].
  rewrite !list_lookup_fmap, Hi. cbn [fmap option_fmap option_map].
  unfold entry_of, status_of. split; [done|].
  by rewrite (bool_decide_ext _ _ Hmem).
Qed.
End ManageProofs.

(** *** The properties at work on the sample host *)

Lemma sim_reload_needs_loaded : @reload_needs_loaded sim_host.
Proof.
  intros b ext Hext. cbn. unfold sim_reload.
  destruct (decide (ext ∈ loaded b)); [done|]. by eexists.
Qed.

Lemma sim_load_needs_unloaded : @load_needs_unloaded sim_host.
Proof.
  intros b ext Hext. cbn. unfold sim_load.
  destruct (decide (ext ∈ loaded b)); [|done]. by eexists.
Qed.

Lemma unload_blacklisted_aborts_witness :
  ∃ w', unload_command [ext_ping; ext_extensions; "*"] w0 = (w', Ret tt)
    ∧ bot w' = bot w0 ∧ calls w' = calls w0 ∧ log w' = log w0
    ∧ sent w' = sent w0 ++
        [Send (create_embed "error"
           ("The following extension(s) may not be unloaded:```" +:+ nl
            +:+ join nl (elements (UNLOAD_BLACKLIST
                                   ∩ list_to_set [ext_ping; ext_extensions; "*"]))
            +:+ "```"))].
Proof.
  apply (unload_blacklisted_aborts [ext_ping; ext_extensions; "*"] w0).
  intros Hempty.
  apply (not_elem_of_empty (C:=gset string) ext_extensions).
  rewrite <- Hempty. apply elem_of_intersection. split.
  - by apply elem_of_singleton.
  - apply elem_of_list_to_set. right. left.
Defined.

Lemma reload_unloaded_is_load_witness :
  ∃ w1 w2 out,
    manage RELOAD ext_twemoji w0 = (w1, Ret out)
    ∧ manage LOAD ext_twemoji w0 = (w2, Ret out)
    ∧ bot w1 = bot w2 ∧ log w1 = log w2 ∧ sent w1 = sent w2
    ∧ calls w1 = calls w0 ++ [(RELOAD, ext_twemoji); (LOAD, ext_twemoji)]
    ∧ ∀ d, manage_rec (2 + d) RELOAD ext_twemoji w0
           = manage RELOAD ext_twemoji w0.
Proof.
  apply (reload_unloaded_is_load ext_twemoji w0 sim_reload_needs_loaded).
  cbn. intros [Hin|Hin]%elem_of_union; apply elem_of_singleton in Hin;
    discriminate Hin.
Defined.

Lemma batch_manage_report_witness :
  let exts := [ext_ping; ext_core; ext_twemoji] in
  let os := outcomes LOAD exts w0 in
  length (succeeded os) + length (failed os) = length exts
  ∧ (Z.of_nat (length exts) - Z.of_nat (length (failed os)))%Z
    = Z.of_nat (length (succeeded os))
  ∧ ∃ w', batch_manage LOAD exts w0
          = (w', Ret (summary LOAD (length exts) (failed os),
                      negb (bool_decide (failed os = [])))).
Proof.
  apply (batch_manage_report LOAD [ext_ping; ext_core; ext_twemoji] w0).
  - apply (bool_decide_unpack _). vm_compute. exact I.
  - cbn. lia.
Defined.

Lemma load_already_loaded_witness :
  ∃ w',
    manage LOAD ext_ping w0
    = (w', Ret ("Extension `" +:+ ext_ping +:+ "` is already loaded.", None))
    ∧ batch_manage LOAD [ext_ping] w0
      = (w', Ret ("Extension `" +:+ ext_ping +:+ "` is already loaded.", false))
    ∧ bot w' = bot w0.
Proof.
  apply (load_already_loaded ext_ping w0 sim_load_needs_unloaded).
  cbn. apply elem_of_union. right. by apply elem_of_singleton.
Defined.

Lemma manage_failure_message_witness :
  let e := Wrapper OtherException "ExtensionFailed"
             ("Extension '" +:+ ext_core +:+ "' raised an error: "
              +:+ class_name nested +:+ ": " +:+ detail nested) nested in
  ∃ w',
    manage LOAD ext_core w0
    = (w', Ret (msg_failed LOAD ext_core (describe (reported_cause e)),
                Some (describe (reported_cause e))))
    ∧ (original (reported_cause e) = None → reported_cause e = innermost e).
Proof.
  apply (manage_failure_message LOAD ext_core w0 b0); vm_compute; reflexivity.
Defined.

(** C7 as stated fails: the error of [bot.exts.core] wraps an error that
    wraps another, and the message names the one in the middle. *)
Lemma manage_innermost_counterexample :
  ¬ (∀ action ext (w : @World sim_host sim_repo) b e,
       Action_value action (bot w) ext = (b, Some e) →
       kind e = OtherException →
       ∃ w', manage action ext w
             = (w', Ret (msg_failed action ext (describe (innermost e)),
                         Some (describe (innermost e))))).
Proof.
  intros Hclaim.
  destruct (Hclaim LOAD ext_core w0 b0
              (Wrapper OtherException "ExtensionFailed"
                 ("Extension '" +:+ ext_core +:+ "' raised an error: "
                  +:+ class_name nested +:+ ": " +:+ detail nested) nested))
    as [w' Hw']; [vm_compute; reflexivity..|].
  vm_compute in Hw'. discriminate Hw'.
Qed.

Lemma status_marker_depends_on_membership_witness :
  ∃ marker,
    marker = (if bool_decide (ext_ping ∈ loaded b0)
              then ":status_online:" else ":status_offline:")
    ∧ (group_extension_statuses (HH:=sim_host) (RR:=sim_repo) b0 !! "utils")
        ≫= (.!! 1%nat)
      = Some (marker +:+ "  " +:+ default "" (last (split "." ext_ping)))
    ∧ (group_extension_statuses (HH:=sim_host) (RR:=sim_repo) b1 !! "utils")
        ≫= (.!! 1%nat)
      = Some (marker +:+ "  " +:+ default "" (last (split "." ext_ping))).
Proof.
  apply (status_marker_depends_on_membership (HH:=sim_host) (RR:=sim_repo)
           b0 b1 "utils" [ext_extensions; ext_ping] 1 ext_ping).
  - vm_compute. reflexivity.
  - reflexivity.
  - cbn. split; intros _.
    + apply elem_of_union. left. by apply elem_of_singleton.
    + apply elem_of_union. right. by apply elem_of_singleton.
Defined.

End ExtensionsProofs.

(* ================================================================== *)
(** ** Further properties of twemoji.py *)
(* ================================================================== *)
Module TwemojiExtras.
Import Twemoji TwemojiProofs.
Local Open Scope N_scope.

(** *** [trim_code] and [emoji] *)

Lemma Forall_of_forallb {A} (f : A → bool) (l : list A) :
  forallb f l = true → Forall (λ x, f x = true) l.
Proof.
  induction l as [|x l IH]; [constructor|].
  cbn [forallb]. intros [Hx Hl]%andb_true_iff. constructor; auto.
Qed.

Lemma at_dollar_inv suf : at_dollar suf = true → suf = [] ∨ suf = [10].
Proof.
  destruct suf as [|d suf]; [by left|]. intros Hend. right.
  unfold at_dollar in Hend.
  destruct d as [|p]; [done|].
  do 4 (destruct p as [p|p|]; try done).
  by destruct suf.
Qed.

Lemma tail_matches_inv k rest :
  tail_matches k rest = true →
  length (take k rest) = k
  ∧ Forall (λ d, in_af09 d = true) (take k rest)
  ∧ at_dollar (drop k rest) = true.
Proof.
  unfold tail_matches.
  intros [[Hk Hall]%andb_true_iff Hend]%andb_true_iff.
  apply bool_decide_eq_true in Hk. split_and!.
  - rewrite length_take. lia.
  - by apply Forall_of_forallb.
  - done.
Qed.

Lemma CODE_match_inv s m :
  CODE_match s = Some m →
  is_code m ∧ ∃ suf, s = m ++ suf ∧ at_dollar suf = true.
Proof.
  unfold CODE_match. destruct s as [|c rest]; [done|].
  destruct (in_af19 c) eqn:Hc; [|done].
  assert (∀ k, (3 ≤ k ≤ 5)%nat → tail_matches k rest = true →
               is_code (c :: take k rest)
               ∧ ∃ suf, c :: rest = (c :: take k rest) ++ suf
                        ∧ at_dollar suf = true) as Hk.
  { intros k Hrange (Hlen & Hall & Hend)%tail_matches_inv. split.
    - exists c, (take k rest). split_and!; try done; lia.
    - exists (drop k rest). split; [|done].
      cbn [app]. by rewrite take_drop. }
  destruct (tail_matches 5 rest) eqn:H5.
  { intros [= <-]. apply Hk; [lia|done]. }
  destruct (tail_matches 4 rest) eqn:H4.
  { intros [= <-]. apply Hk; [lia|done]. }
  destruct (tail_matches 3 rest) eqn:H3; [|done].
  intros [= <-]. apply Hk; [lia|done].
Qed.

Lemma CODE_search_inv s m :
  CODE_search s = Some m →
  is_code m ∧ ∃ pre suf, s = pre ++ m ++ suf ∧ at_dollar suf = true.
Proof.
  induction s as [|c s IH].
  - cbn. done.
  - cbn [CODE_search]. destruct (CODE_match (c :: s)) as [m'|] eqn:Hm.
    + intros [= <-]. apply CODE_match_inv in Hm as (Hcode & suf & Hs & Hend).
      split; [done|]. by exists [], suf.
    + intros (Hcode & pre & suf & Hs & Hend)%IH. split; [done|].
      exists (c :: pre), suf. by rewrite Hs.
Qed.

Lemma trim_code_is_code (x : option pystr) (m : pystr) :
  trim_code x = Some m → is_code m.
Proof.
  unfold trim_code. destruct (truthy x); [|done]. cbn [negb].
  destruct x as [s|]; [|done]. by intros [Hcode _]%CODE_search_inv.
Qed.

(** X1.  Whatever [trim_code] returns is a code of four to six hexadecimal
    characters whose first is not [0], and it stands at the end of the
    input, followed at most by one final line feed. *)
Theorem trim_code_shape (x : option pystr) (m : pystr) :
  trim_code x = Some m →
  is_code m
  ∧ ∃ s pre suf, x = Some s ∧ s = pre ++ m ++ suf
                 ∧ (suf = [] ∨ suf = [10]).
Proof.
  unfold trim_code. destruct (truthy x); [|done]. cbn [negb].
  destruct x as [s|]; [|done].
  intros (Hcode & pre & suf & Hs & Hend)%CODE_search_inv.
  split; [done|]. exists s, pre, suf. split_and!; [done..|].
  by apply at_dollar_inv.
Qed.

Lemma trim_code_fixed m : is_code m → trim_code (Some m) = Some m.
Proof.
  intros (c & rest & -> & Hc & Hall & Hlen).
  unfold trim_code. cbn [truthy negb].
  apply CODE_search_whole; [done| |done]. by apply forallb_of_Forall.
Qed.

(** X2.  Trimming twice is trimming once, so [emoji(trim_code(code))], as
    [codepoint_from_input] writes it, is [emoji(code)]. *)
Theorem emoji_trim_code (x : option pystr) :
  trim_code (trim_code x) = trim_code x
  ∧ emoji (trim_code x) = emoji x.
Proof.
  assert (trim_code (trim_code x) = trim_code x) as Hidem.
  { destruct (trim_code x) as [m|] eqn:Hx; [|done].
    apply trim_code_fixed. by apply trim_code_is_code in Hx. }
  split; [done|]. unfold emoji. by rewrite Hidem.
Qed.

Lemma hex_val_af09 d :
  in_af09 d = true → ∃ v, hex_val d = Some v ∧ v < 16.
Proof.
  unfold in_af09, hex_val. intros H.
  repeat match goal with
         | |- context [(?a <=? ?b)] => destruct (N.leb_spec a b)
         | H : context [(?a <=? ?b)] |- _ => destruct (N.leb_spec a b)
         end; cbn [andb orb] in *; try done; try (exfalso; lia);
    eexists; (split; [done|lia]).
Qed.

Lemma hex_val_af19 d :
  in_af19 d = true → ∃ v, hex_val d = Some v ∧ 0 < v < 16.
Proof.
  unfold in_af19, hex_val. intros H.
  repeat match goal with
         | |- context [(?a <=? ?b)] => destruct (N.leb_spec a b)
         | H : context [(?a <=? ?b)] |- _ => destruct (N.leb_spec a b)
         end; cbn [andb orb] in *; try done; try (exfalso; lia);
    eexists; (split; [done|lia]).
Qed.

Lemma int16_go_digits s : ∀ acc,
  Forall (λ d, in_af09 d = true) s →
  ∃ v, int16_go acc s = Some (acc * 16 ^ N.of_nat (length s) + v)
       ∧ v < 16 ^ N.of_nat (length s).
Proof.
  induction s as [|d s IH]; intros acc Hall.
  - exists 0. cbn. split; [f_equal; lia|lia].
  - apply Forall_cons in Hall as [Hd Hall].
    destruct (hex_val_af09 d Hd) as (v & Hv & Hlt).
    destruct (IH (16 * acc + v) Hall) as (v' & Hgo & Hlt').
    cbn [int16_go length]. rewrite Hv, Hgo.
    rewrite Nat2N.inj_succ, N.pow_succ_r'.
    set (P := 16 ^ N.of_nat (length s)) in *.
    exists (v * P + v'). split; [f_equal; lia|]. nia.
Qed.

Lemma int16_code m :
  is_code m → ∃ n, int16 m = Ret n ∧ 0x1000 ≤ n < 0x1000000.
Proof.
  intros (c & rest & -> & Hc & Hall & Hlen).
  destruct (hex_val_af19 c Hc) as (v & Hv & Hpos).
  destruct (int16_go_digits rest (16 * 0 + v) Hall) as (v' & Hgo & Hlt).
  unfold int16. cbn [int16_go]. rewrite Hv, Hgo.
  eexists. split; [done|].
  assert (16 ^ 3 ≤ 16 ^ N.of_nat (length rest)) as Hlo
    by (apply N.pow_le_mono_r; lia).
  assert (16 ^ N.of_nat (length rest) ≤ 16 ^ 5) as Hhi
    by (apply N.pow_le_mono_r; lia).
  change (16 ^ 3) with 4096 in Hlo. change (16 ^ 5) with 1048576 in Hhi.
  set (P := 16 ^ N.of_nat (length rest)) in *. nia.
Qed.

(** X3.  [emoji] returns the empty string exactly when [trim_code] finds
    no code; otherwise the code is a number from 0x1000 up, and [emoji]
    returns the one character of that number, or raises the [ValueError] of
    [chr] when the number is above 0x10FFFF.  It never returns a character
    below U+1000. *)
Theorem emoji_cases (x : option pystr) :
  match trim_code x with
  | None => emoji x = Ret []
  | Some m =>
      ∃ n, int16 m = Ret n ∧ 0x1000 ≤ n < 0x1000000
           ∧ emoji x = (if n <=? MAX_CODEPOINT then Ret [n]
                        else Raise (ValueError "chr() arg not in range(0x110000)"))
  end.
Proof.
  destruct (trim_code x) as [m|] eqn:Hx.
  - pose proof (trim_code_is_code _ _ Hx) as Hcode.
    destruct (int16_code m Hcode) as (n & Hint & Hrange).
    exists n. split; [done|]. split; [done|].
    unfold emoji. rewrite Hx. destruct Hcode as (c & rest & -> & _).
    cbn [truthy]. rewrite Hint. reflexivity.
  - unfold emoji. by rewrite Hx.
Qed.

(** *** Splitting and joining *)

Lemma split_go_spaces s : ∀ cur,
  Forall (λ c, isspace c = true) s →
  split_go cur s = match cur with [] => [] | _ => [cur] end.
Proof.
  induction s as [|c s IH]; intros cur Hall; [done|].
  apply Forall_cons in Hall as [Hc Hall].
  cbn [split_go]. rewrite Hc. destruct cur; by rewrite IH.
Qed.

Lemma split_go_token tok : ∀ cur s,
  Forall (λ c, isspace c = false) tok →
  split_go cur (tok ++ s) = split_go (cur ++ tok) s.
Proof.
  induction tok as [|c tok IH]; intros cur s Hall.
  - by rewrite app_nil_r.
  - apply Forall_cons in Hall as [Hc Hall].
    cbn [app split_go]. rewrite Hc, IH by done.
    by rewrite <- app_assoc.
Qed.

(** Tokens joined by single spaces split back into the tokens. *)
Lemma split_join_spaces (toks : list pystr) :
  Forall (λ tok, tok ≠ [] ∧ Forall (λ c, isspace c = false) tok) toks →
  split (join (lit " ") toks) = toks.
Proof.
  change (lit " ") with [32]. unfold split.
  induction toks as [|tok toks IH]; intros Hall; [done|].
  apply Forall_cons in Hall as [[Hne Htok] Hall].
  destruct toks as [|tok' toks].
  - cbn [join]. pose proof (split_go_token tok [] [] Htok) as Hgo.
    rewrite app_nil_r in Hgo. rewrite Hgo.
    cbn. destruct tok; [by destruct Hne|done].
  - change (join [32] (tok :: tok' :: toks))
      with (tok ++ 32 :: join [32] (tok' :: toks)).
    rewrite split_go_token by done. cbn [app split_go].
    change (isspace 32) with true. cbn match.
    rewrite IH by done. destruct tok; [by destruct Hne|done].
Qed.

Lemma split_on_plain sep s :
  sep ∉ s → split_on sep s = [s].
Proof.
  induction s as [|c s IH]; intros Hsep; [done|].
  apply not_elem_of_cons in Hsep as [Hne Hsep].
  cbn [split_on]. destruct (N.eqb_spec c sep) as [->|_]; [done|].
  by rewrite IH.
Qed.

Lemma split_on_app sep p s :
  sep ∉ p → split_on sep (p ++ sep :: s) = p :: split_on sep s.
Proof.
  induction p as [|c p IH]; intros Hsep.
  - cbn. by rewrite N.eqb_refl.
  - apply not_elem_of_cons in Hsep as [Hne Hsep].
    cbn [app split_on]. destruct (N.eqb_spec c sep) as [->|_]; [done|].
    by rewrite IH.
Qed.

(** Parts joined by the separator split back into the parts. *)
Lemma split_on_join sep (parts : list pystr) :
  parts ≠ [] → Forall (λ p, sep ∉ p) parts →
  split_on sep (join [sep] parts) = parts.
Proof.
  induction parts as [|p parts IH]; intros Hne Hall; [done|].
  apply Forall_cons in Hall as [Hp Hall].
  destruct parts as [|p' parts].
  - cbn [join]. by apply split_on_plain.
  - change (join [sep] (p :: p' :: parts))
      with (p ++ sep :: join [sep] (p' :: parts)).
    rewrite split_on_app by done. by rewrite IH.
Qed.

Lemma hex_digits_af09 c : Forall (λ d, in_af09 d = true) (hex_digits c).
Proof. apply hex_digits_spec. Qed.

Lemma af09_no_hyphen s : Forall (λ d, in_af09 d = true) s → 45 ∉ s.
Proof.
  intros Hall Hin. rewrite Forall_forall in Hall.
  by apply Hall in Hin.
Qed.

Lemma in_af09_range d :
  in_af09 d = true → 48 ≤ d ≤ 57 ∨ 97 ≤ d ≤ 102.
Proof.
  unfold in_af09.
  destruct (N.leb_spec 97 d), (N.leb_spec d 102), (N.leb_spec 48 d),
    (N.leb_spec d 57); cbn [andb orb]; try done; lia.
Qed.

Lemma af09_no_space s :
  Forall (λ d, in_af09 d = true) s → Forall (λ c, isspace c = false) s.
Proof.
  intros Hall. eapply Forall_impl; [exact Hall|].
  intros d Hd%in_af09_range.
  assert (d = 48 ∨ d = 49 ∨ d = 50 ∨ d = 51 ∨ d = 52 ∨ d = 53 ∨ d = 54
          ∨ d = 55 ∨ d = 56 ∨ d = 57 ∨ d = 97 ∨ d = 98 ∨ d = 99 ∨ d = 100
          ∨ d = 101 ∨ d = 102) as Hcases by lia.
  repeat destruct Hcases as [->|Hcases]; try reflexivity.
  by subst d.
Qed.

Lemma hex_digits_nonempty c : hex_digits c ≠ [].
Proof.
  destruct (hex_digits_spec c) as (_ & _ & Hub & _).
  destruct (hex_digits c) eqn:Hc; [|done].
  cbn in Hub. assert (c = 0) as -> by lia. by vm_compute in Hc.
Qed.

(** *** Reading code points back *)

Lemma emoji_hex_digits c :
  c ≤ MAX_CODEPOINT →
  emoji (Some (hex_digits c)) = Ret (if 0x1000 <=? c then [c] else []).
Proof.
  intros Hmax. change (emoji (Some (hex_digits c))) with (roundtrip [c]).
  destruct (N.leb_spec 0x1000 c).
  - by apply roundtrip_large.
  - by apply roundtrip_small.
Qed.

Lemma for_each_emoji_hex (e : pystr) :
  Forall (λ c, c ≤ MAX_CODEPOINT) e →
  for_each (λ code, emoji (Some code)) (hex_digits <$> e)
  = Ret ((λ c, if 0x1000 <=? c then [c] else []) <$> e).
Proof.
  induction 1 as [|c e Hc _ IH]; [done|].
  cbn [fmap list_fmap for_each]. rewrite emoji_hex_digits by done.
  cbn [mbind result_bind]. fold (hex_digits <$> e). rewrite IH. done.
Qed.

Lemma concat_readable (e : pystr) :
  concat ((λ c, if 0x1000 <=? c then [c] else []) <$> e) = readable e.
Proof.
  unfold readable. induction e as [|c e IH]; [done|].
  cbn [fmap list_fmap concat]. fold ((λ c, if 0x1000 <=? c then [c] else []) <$> e).
  rewrite IH. destruct (N.leb_spec 0x1000 c).
  - by rewrite filter_cons_True.
  - rewrite filter_cons_False by lia. done.
Qed.


Lemma get_url_svg cp : get_url cp (lit "svg") = Done (svg_base ++ cp ++ lit ".svg").
Proof. reflexivity. Qed.

Lemma get_url_png cp : get_url cp (lit "png") = Done (png_base ++ cp ++ lit ".png").
Proof. reflexivity. Qed.

Lemma for_each_emoji_trim_hex (e : pystr) :
  Forall (λ c, 0x1000 ≤ c ≤ MAX_CODEPOINT) e →
  for_each (λ code, emoji (trim_code (Some code))) (hex_digits <$> e)
  = Ret ((λ c, [c]) <$> e).
Proof.
  induction 1 as [|c e [Hlo Hhi] _ IH]; [done|].
  cbn [fmap list_fmap for_each].
  rewrite trim_code_hex_large by done.
  rewrite emoji_hex_digits by done.
  apply N.leb_le in Hlo. rewrite Hlo. cbn [mbind result_bind].
  fold (hex_digits <$> e). rewrite IH. done.
Qed.

Lemma concat_singletons (l : pystr) : concat ((λ c, [c]) <$> l) = l.
Proof. induction l as [|x l IH]; [done|]. cbn. f_equal. exact IH. Qed.

(** *** [codepoint_from_input], [build_embed] and the command *)

Section CommandProofs.
Variable lower : pystr → pystr.
Variable capitalize : pystr → pystr.
Variable EMOJI_DATA : gset pystr.
Variable UNICODE_EMOJI_ENGLISH : gmap pystr pystr.
Variable Embed : Type.
Variable create_embed : pystr → pystr → pystr → Embed.

Local Abbreviation codepoint_from_input := (codepoint_from_input lower EMOJI_DATA).
Local Abbreviation build_embed :=
  (build_embed capitalize UNICODE_EMOJI_ENGLISH Embed create_embed).
Local Abbreviation twemoji :=
  (twemoji lower capitalize EMOJI_DATA UNICODE_EMOJI_ENGLISH Embed create_embed).

Lemma codepoint_from_input_first raw tok toks :
  split raw = tok :: toks → lower tok ∈ EMOJI_DATA →
  codepoint_from_input raw = Ret (canonical (lower tok)).
Proof.
  intros Hsplit Hin. unfold Twemoji.codepoint_from_input. rewrite Hsplit.
  cbn [fmap list_fmap index0 mbind result_bind].
  unfold is_emoji. rewrite bool_decide_eq_true_2 by done.
  by rewrite for_each_codepoint.
Qed.

(** X4.  For every input with at least one token, the result is the
    canonical form of an emoji of the table, or a [ValueError]. *)
Theorem codepoint_from_input_resolves raw :
  split raw ≠ [] →
  (∃ e, e ∈ EMOJI_DATA ∧ codepoint_from_input raw = Ret (canonical e))
  ∨ (∃ err, is_ValueError err ∧ codepoint_from_input raw = Raise err).
Proof. apply codepoint_from_input_nonblank. Qed.

(** X5.  When the first token of the input, in lower case, is an emoji of
    the table, the result is its canonical form, and the tokens after it are
    not looked at: two inputs with that first token give the same result. *)
Theorem codepoint_from_input_first_token raw raw' tok toks toks' :
  split raw = tok :: toks → split raw' = tok :: toks' →
  lower tok ∈ EMOJI_DATA →
  codepoint_from_input raw = Ret (canonical (lower tok))
  ∧ codepoint_from_input raw' = codepoint_from_input raw.
Proof.
  intros Hraw Hraw' Hin.
  rewrite (codepoint_from_input_first raw tok toks) by done.
  by rewrite (codepoint_from_input_first raw' tok toks').
Qed.

(** X6.  The code points of an emoji of the table, each from 0x1000 up,
    written in hexadecimal and separated by spaces, resolve to the canonical
    form of that emoji (unless the first code is itself in the table, which
    the branch for glyphs takes). *)
Theorem codepoint_from_input_hex_roundtrip (e : pystr) :
  e ≠ [] →
  Forall (λ c, 0x1000 ≤ c ≤ MAX_CODEPOINT) e →
  e ∈ EMOJI_DATA →
  (∀ s, Forall (λ d, in_af09 d = true) s → lower s = s) →
  (∀ c, hex_digits c ∉ EMOJI_DATA) →
  codepoint_from_input (join (lit " ") (hex_digits <$> e)) = Ret (canonical e).
Proof.
  intros Hne Hrange Hin Hlower Hcodes.
  unfold Twemoji.codepoint_from_input. rewrite split_join_spaces.
  2:{ apply Forall_fmap, Forall_forall. intros c _. cbn. split.
      - apply hex_digits_nonempty.
      - apply af09_no_space, hex_digits_af09. }
  assert (lower <$> (hex_digits <$> e) = hex_digits <$> e) as ->.
  { rewrite <- list_fmap_compose. apply list_fmap_ext. intros _ c _. cbn.
    apply Hlower, hex_digits_af09. }
  destruct e as [|c e]; [done|].
  rewrite for_each_emoji_trim_hex by done.
  cbn [fmap list_fmap index0 mbind result_bind].
  unfold is_emoji at 1. rewrite bool_decide_eq_false_2 by apply Hcodes.
  fold ((λ c, [c]) <$> e). change ([c] :: ((λ c, [c]) <$> e))
    with ((λ c, [c]) <$> (c :: e)).
  rewrite concat_singletons.
  unfold is_emoji. rewrite bool_decide_eq_true_2 by done.
  by rewrite for_each_codepoint.
Qed.

Lemma build_embed_read (e : pystr) :
  Forall (λ c, c ≤ MAX_CODEPOINT) e →
  ∃ parts,
    lift (for_each (λ code, emoji (Some code)) (split_on 45 (canonical e)))
    = Done parts
    ∧ concat parts = readable e.
Proof.
  intros Hmax. destruct e as [|c e].
  - by exists [[]].
  - exists ((λ c, if 0x1000 <=? c then [c] else []) <$> (c :: e)).
    split; [|apply concat_readable].
    unfold canonical. change (lit "-") with [45].
    rewrite split_on_join.
    + by rewrite for_each_emoji_hex.
    + done.
    + apply Forall_fmap, Forall_forall. intros d _. cbn.
      apply af09_no_hyphen, hex_digits_af09.
Qed.

(** X7.  Given the canonical form of an emoji, [build_embed] looks up the
    alias of the emoji without its characters below U+1000: it raises
    [KeyError] when that string has no alias, and otherwise returns the embed
    titled with the alias, with the PNG as thumbnail and the link to the
    SVG.  It raises nothing else. *)
Theorem build_embed_canonical (e : pystr) :
  Forall (λ c, c ≤ MAX_CODEPOINT) e →
  build_embed (canonical e)
  = match UNICODE_EMOJI_ENGLISH !! readable e with
    | None => Fails (KeyError (readable e))
    | Some alias =>
        Done (create_embed (alias_to_name capitalize alias)
                (description (canonical e))
                (png_base ++ canonical e ++ lit ".png"))
    end.
Proof.
  intros Hmax. unfold Twemoji.build_embed.
  destruct (build_embed_read e Hmax) as (parts & Hread & Hparts).
  rewrite Hread. cbn [mbind cmd_result_bind]. rewrite Hparts.
  destruct (UNICODE_EMOJI_ENGLISH !! readable e); [|done].
  by rewrite get_url_svg, get_url_png.
Qed.


(** X9.  An input that is not empty and holds white space only makes the
    command raise [IndexError]: the guard lets it through, there is no token
    to index, and the handler of the command catches [ValueError] only. *)
Theorem twemoji_blank raw :
  raw ≠ [] → Forall (λ c, isspace c = true) raw →
  twemoji raw = Fails (Builtin (IndexError "list index out of range")).
Proof.
  intros Hne Hall. unfold Twemoji.twemoji.
  destruct raw as [|c raw]; [done|].
  rewrite bool_decide_eq_false_2 by done.
  unfold Twemoji.codepoint_from_input, split.
  by rewrite split_go_spaces.
Qed.

(** X10.  Whenever [codepoint_from_input] fails on an input with a token,
    the command raises [BadArgument]; it raises nothing else before
    [build_embed] runs. *)
Theorem twemoji_bad_argument raw err :
  split raw ≠ [] →
  codepoint_from_input raw = Raise err →
  twemoji raw
  = Fails (BadArgument "please include a valid emoji or emoji codepoint.").
Proof.
  intros Hne Herr. unfold Twemoji.twemoji.
  destruct raw as [|c raw]; [done|].
  rewrite bool_decide_eq_false_2 by done.
  destruct (codepoint_from_input_nonblank lower EMOJI_DATA (c :: raw) Hne)
    as [(e & _ & He)|(err' & [msg ->] & He)].
  - rewrite Herr in He. discriminate He.
  - by rewrite He.
Qed.
End CommandProofs.

(** *** The properties at work on the sample table *)

Lemma ascii_lower_hex s :
  Forall (λ d, in_af09 d = true) s → ascii_lower s = s.
Proof.
  induction 1 as [|d s Hd%in_af09_range _ IH]; [done|].
  unfold ascii_lower in *. cbn [fmap list_fmap]. rewrite IH. f_equal.
  destruct (N.leb_spec 65 d), (N.leb_spec d 90); cbn [andb]; try done; lia.
Qed.

Lemma hex_digits_not_sample c : hex_digits c ∉ sample_emojis.
Proof.
  pose proof (hex_digits_af09 c) as Hall. unfold sample_emojis.
  rewrite !elem_of_union, !elem_of_singleton.
  intros [[H|H]|H]; rewrite H in Hall;
    apply Forall_cons in Hall as [Hd _]; by vm_compute in Hd.
Qed.

Lemma trim_code_shape_witness :
  is_code (lit "1f1f8")
  ∧ ∃ s pre suf, Some (lit "U+1f1f8") = Some s ∧ s = pre ++ lit "1f1f8" ++ suf
                 ∧ (suf = [] ∨ suf = [10]).
Proof.
  apply (trim_code_shape (Some (lit "U+1f1f8")) (lit "1f1f8")). reflexivity.
Defined.

Lemma codepoint_from_input_resolves_witness :
  (∃ e, e ∈ sample_emojis
        ∧ codepoint_from_input ascii_lower sample_emojis (lit "1F1F8 1f1ea")
          = Ret (canonical e))
  ∨ (∃ err, is_ValueError err
            ∧ codepoint_from_input ascii_lower sample_emojis (lit "1F1F8 1f1ea")
              = Raise err).
Proof.
  apply (codepoint_from_input_resolves ascii_lower sample_emojis
           (lit "1F1F8 1f1ea")).
  vm_compute. discriminate.
Defined.

Lemma codepoint_from_input_first_token_witness :
  codepoint_from_input ascii_lower sample_emojis ([0x1f40d] ++ lit " and more")
  = Ret (canonical (ascii_lower [0x1f40d]))
  ∧ codepoint_from_input ascii_lower sample_emojis [0x1f40d]
    = codepoint_from_input ascii_lower sample_emojis
        ([0x1f40d] ++ lit " and more").
Proof.
  apply (codepoint_from_input_first_token ascii_lower sample_emojis
           ([0x1f40d] ++ lit " and more") [0x1f40d]
           [0x1f40d] [lit "and"; lit "more"] []).
  - reflexivity.
  - reflexivity.
  - cbn. unfold sample_emojis. rewrite !elem_of_union, !elem_of_singleton.
    by left; left.
Defined.

Lemma codepoint_from_input_hex_roundtrip_witness :
  codepoint_from_input ascii_lower sample_emojis
    (join (lit " ") (hex_digits <$> [0x1f1f8; 0x1f1ea]))
  = Ret (canonical [0x1f1f8; 0x1f1ea]).
Proof.
  apply (codepoint_from_input_hex_roundtrip ascii_lower sample_emojis
           [0x1f1f8; 0x1f1ea]).
  - done.
  - repeat constructor; unfold MAX_CODEPOINT; lia.
  - unfold sample_emojis. rewrite !elem_of_union, !elem_of_singleton.
    by left; right.
  - apply ascii_lower_hex.
  - apply hex_digits_not_sample.
Defined.

Lemma build_embed_canonical_witness :
  build_embed ascii_capitalize sample_aliases _ sample_embed
    (canonical [0xa9; 0xfe0f])
  = match sample_aliases !! readable [0xa9; 0xfe0f] with
    | None => Fails (KeyError (readable [0xa9; 0xfe0f]))
    | Some alias =>
        Done (sample_embed (alias_to_name ascii_capitalize alias)
                (description (canonical [0xa9; 0xfe0f]))
                (png_base ++ canonical [0xa9; 0xfe0f] ++ lit ".png"))
    end.
Proof.
  apply (build_embed_canonical ascii_capitalize sample_aliases _ sample_embed
           [0xa9; 0xfe0f]).
  repeat constructor; unfold MAX_CODEPOINT; lia.
Defined.


Lemma twemoji_blank_witness :
  twemoji ascii_lower ascii_capitalize sample_emojis sample_aliases _
    sample_embed (lit "  ")
  = Fails (Builtin (IndexError "list index out of range")).
Proof.
  apply (twemoji_blank ascii_lower ascii_capitalize sample_emojis
           sample_aliases _ sample_embed (lit "  ")).
  - done.
  - by repeat constructor.
Defined.

Lemma twemoji_bad_argument_witness :
  twemoji ascii_lower ascii_capitalize sample_emojis sample_aliases _
    sample_embed (lit "hello")
  = Fails (BadArgument "please include a valid emoji or emoji codepoint.").
Proof.
  apply (twemoji_bad_argument ascii_lower ascii_capitalize sample_emojis
           sample_aliases _ sample_embed (lit "hello")
           (ValueError "No codepoint could be obtained from the given input")).
  - vm_compute. discriminate.
  - vm_compute. reflexivity.
Defined.

End TwemojiExtras.
